(** * Iterators, generators and containers of the Effective Python notebooks

    A shallow embedding of the code cells of three notebooks:

    - Item 30, "Consider Generators Instead Of Returning Lists"
      ([index_words], [index_words_iter]);
    - Item 31, "Be Defensive When Iterating Over Arguments"
      ([normalize], [read_values], [normalize_copy], [ReadValues],
      [normalize_defensive]);
    - Item 33, "Compose Multiple Generators with yield from"
      ([move], [pause], [animate], [animate_composed], [child], [slow],
      [fast]).

    Item 32's cells only print iterators over a file and are not modelled.

    Python objects with identity (lists, list iterators, generator objects,
    [ReadValues] instances) live in a heap indexed by addresses; the built-ins
    [iter] and [next] act on that heap.  Numbers are Python ints (unbounded,
    [Z]) and Python floats (IEEE 754 binary64, Rocq's primitive [float]). *)

From Stdlib Require Import ZArith Floats Lia Ascii String Sorted.
From stdpp Require Import gmap strings list.

Open Scope Z_scope.

(** A decimal float literal denotes the nearest binary64 value, as in Python. *)
Set Warnings "-inexact-float".

(** ** Exceptions and results *)

Inductive exn : Type :=
| StopIteration
| TypeError (msg : string)
| ZeroDivisionError (msg : string)
| OverflowError (msg : string)
| ValueError (msg : string)
| RuntimeError (msg : string)
| SystemError (msg : string)
| FileNotFoundError (path : string).

(** What evaluating a Python expression gives: its value, or the exception it raised. *)
Inductive outcome (A : Type) : Type :=
| Ok (a : A)
| Raise (e : exn).
Arguments Ok {A} a.
Arguments Raise {A} e.

Global Instance outcome_ret : MRet outcome := @Ok.
Global Instance outcome_bind : MBind outcome := fun A B f r =>
  match r with
  | Ok a => f a
  | Raise e => Raise e
  end.

(** ** Numbers *)

Inductive num : Type :=
| VInt (z : Z)
| VFloat (f : float).

(** An int as an (unnormalised) binary float with exponent 0: the exact
    operand of int true division. *)
Definition sf_of_int (z : Z) : spec_float :=
  match z with
  | Z0 => S754_zero false
  | Zpos p => S754_finite false p 0
  | Zneg p => S754_finite true p 0
  end.

(** [float(z)]: the nearest binary64 value, ties to even; an int whose
    rounding leaves the finite range raises OverflowError. *)
Definition float_of_int (z : Z) : outcome float :=
  match binary_normalize prec emax z 0 false with
  | S754_infinity _ => Raise (OverflowError "int too large to convert to float")
  | sf => Ok (SF2Prim sf)
  end.

(** [a / b] on two ints: the exact quotient rounded once to binary64. *)
Definition int_truediv (a b : Z) : outcome float :=
  if b =? 0 then Raise (ZeroDivisionError "division by zero")
  else match SFdiv prec emax (sf_of_int a) (sf_of_int b) with
       | S754_infinity _ =>
           Raise (OverflowError "integer division result too large for a float")
       | sf => Ok (SF2Prim sf)
       end.

(** [a / b] on two floats. *)
Definition float_truediv (a b : float) : outcome float :=
  if PrimFloat.is_zero b then Raise (ZeroDivisionError "float division by zero")
  else Ok (a / b)%float.

(** Binary operators: an int operand is converted when the other is a float. *)
Definition py_add (a b : num) : outcome num :=
  match a, b with
  | VInt x, VInt y => Ok (VInt (x + y))
  | VFloat x, VFloat y => Ok (VFloat (x + y)%float)
  | VInt x, VFloat y => x' ← float_of_int x; Ok (VFloat (x' + y)%float)
  | VFloat x, VInt y => y' ← float_of_int y; Ok (VFloat (x + y')%float)
  end.

Definition py_mul (a b : num) : outcome num :=
  match a, b with
  | VInt x, VInt y => Ok (VInt (x * y))
  | VFloat x, VFloat y => Ok (VFloat (x * y)%float)
  | VInt x, VFloat y => x' ← float_of_int x; Ok (VFloat (x' * y)%float)
  | VFloat x, VInt y => y' ← float_of_int y; Ok (VFloat (x * y')%float)
  end.

Definition py_truediv (a b : num) : outcome num :=
  match a, b with
  | VInt x, VInt y => q ← int_truediv x y; Ok (VFloat q)
  | VFloat x, VFloat y => q ← float_truediv x y; Ok (VFloat q)
  | VInt x, VFloat y => x' ← float_of_int x; q ← float_truediv x' y; Ok (VFloat q)
  | VFloat x, VInt y => y' ← float_of_int y; q ← float_truediv x y'; Ok (VFloat q)
  end.

(** Left-to-right monadic fold: the loop bodies below thread their local
    variables through it. *)
Fixpoint fold_outcome {A B : Type} (f : A → B → outcome A) (acc : A) (l : list B)
  : outcome A :=
  match l with
  | [] => Ok acc
  | x :: l' => acc' ← f acc x; fold_outcome f acc' l'
  end.

(** ** Generator bodies

    A generator function's body is a computation that may suspend at a
    [yield].  The bodies of these notebooks touch no shared object between
    two yields, so a frame is the rest of its run: the values still to be
    yielded, ended by a normal return or by a raised exception.  Iterators a
    body creates for its own loops ([range(...)], [move(...)], [child()])
    never escape it and are kept inside the frame. *)

Inductive Gen (R : Type) : Type :=
| Return (r : R)
| Yield (v : num) (k : Gen R)
| Throw (e : exn).
Arguments Return {R} r.
Arguments Yield {R} v k.
Arguments Throw {R} e.

Fixpoint gen_bind {A B : Type} (f : A → Gen B) (g : Gen A) : Gen B :=
  match g with
  | Return a => f a
  | Yield v k => Yield v (gen_bind f k)
  | Throw e => Throw e
  end.

Global Instance Gen_ret : MRet Gen := @Return.
Global Instance Gen_bind : MBind Gen := @gen_bind.

(** [yield v] *)
Definition yield (v : num) : Gen unit := Yield v (Return tt).

(** [pass] *)
Definition pass : Gen unit := Return tt.

(** An expression evaluated inside a generator body. *)
Definition eval {A : Type} (r : outcome A) : Gen A :=
  match r with
  | Ok a => Return a
  | Raise e => Throw e
  end.

(** [for x in l: body] over the items of an immutable sequence. *)
Fixpoint for_each {A : Type} (l : list A) (body : A → Gen unit) : Gen unit :=
  match l with
  | [] => pass
  | x :: l' => body x;; for_each l' body
  end.

(** [for x in l: body] where the body assigns to a local variable [s] of
    the generator. *)
Fixpoint for_each_acc {A S : Type} (l : list A) (body : S → A → Gen S) (s : S)
  : Gen S :=
  match l with
  | [] => Return s
  | x :: l' => s' ← body s x; for_each_acc l' body s'
  end.

(** [range(n)] *)
Definition range (n : Z) : list Z := seqZ 0 n.

(** [for x in g(...): body] over a generator the body has just created: the
    loop resumes the child for each item and ends when the child returns. *)
Fixpoint for_gen (child : Gen unit) (body : num → Gen unit) : Gen unit :=
  match child with
  | Return _ => pass
  | Yield v k => body v;; for_gen k body
  | Throw e => Throw e
  end.

(** [yield from g(...)]: every value of the child is handed to the caller of
    the delegating generator directly; the expression's value is the child's
    return value. *)
Fixpoint yield_from {R : Type} (child : Gen R) : Gen R :=
  match child with
  | Return r => Return r
  | Yield v k => Yield v (yield_from k)
  | Throw e => Throw e
  end.

(** The values a frame still yields, and whether it ends by returning. *)
Fixpoint outputs {R : Type} (g : Gen R) : list num :=
  match g with
  | Yield v k => v :: outputs k
  | _ => []
  end.

Fixpoint returns {R : Type} (g : Gen R) : bool :=
  match g with
  | Return _ => true
  | Yield _ k => returns k
  | Throw _ => false
  end.

(** The value a frame returns, and the exception it ends with. *)
Fixpoint returned {R : Type} (g : Gen R) : option R :=
  match g with
  | Return r => Some r
  | Yield _ k => returned k
  | Throw _ => None
  end.

Fixpoint throws {R : Type} (g : Gen R) : option exn :=
  match g with
  | Return _ => None
  | Yield _ k => throws k
  | Throw e => Some e
  end.

(** ** Item 33: composing generators *)

Module Item33.

Definition move (period : Z) (speed : num) : Gen unit :=
  for_each (range period) (λ _, yield speed).

Definition pause (delay : Z) : Gen unit :=
  for_each (range delay) (λ _, yield (VInt 0)).

Definition animate : Gen unit :=
  for_gen (move 4 (VFloat 5.0)) (λ delta, yield delta);;
  for_gen (pause 3) (λ delta, yield delta);;
  for_gen (move 2 (VFloat 3.0)) (λ delta, yield delta).

Definition animate_composed : Gen unit :=
  yield_from (move 4 (VFloat 5.0));;
  yield_from (pause 3);;
  yield_from (move 2 (VFloat 3.0)).

Definition child : Gen unit :=
  for_each (range 50000000) (λ i, yield (VInt i)).

Definition slow : Gen unit :=
  for_gen child (λ i, yield i).

Definition fast : Gen unit :=
  yield_from child.

End Item33.

(** ** Item 30: generators instead of lists *)

Module Item30.

(** [enumerate(text)] from a start index. *)
Fixpoint enumerate_from (start : Z) (text : list ascii) : list (Z * ascii) :=
  match text with
  | [] => []
  | letter :: text' => (start, letter) :: enumerate_from (start + 1) text'
  end.

Definition enumerate (text : string) : list (Z * ascii) :=
  enumerate_from 0 (list_ascii_of_string text).

(** The truth value of a str: it is not empty. *)
Definition truthy (text : string) : bool :=
  match text with
  | EmptyString => false
  | String _ _ => true
  end.

Definition index_words (text : string) : list num :=
  let result := [] in
  let result := if truthy text then result ++ [VInt 0] else result in
  foldl (λ result '(index, letter),
           if Ascii.eqb letter " " then result ++ [VInt (index + 1)] else result)
        result (enumerate text).

Definition index_words_iter (text : string) : Gen unit :=
  (if truthy text then yield (VInt 0) else pass);;
  for_each (enumerate text) (λ '(index, letter),
    if Ascii.eqb letter " " then yield (VInt (index + 1)) else pass).

(** The handle is given by the lines it still delivers; the generator is its
    only reader. *)
Definition index_file (handle : list string) : Gen unit :=
  let offset := 0 in
  for_each_acc handle (λ offset line,
    (if truthy line then yield (VInt offset) else pass);;
    for_each_acc (list_ascii_of_string line) (λ offset letter,
      let offset := offset + 1 in
      (if Ascii.eqb letter " " then yield (VInt offset) else pass);;
      Return offset) offset) offset;;
  pass.

(** The offsets just after each space of [text], counted from [start]. *)
Fixpoint space_ends (start : Z) (text : list ascii) : list Z :=
  match text with
  | [] => []
  | letter :: text' =>
      (if Ascii.eqb letter " " then [start + 1] else [])
      ++ space_ends (start + 1) text'
  end.

(** The offsets at which the words of the lines of a file start, the first
    line starting at [start]. *)
Fixpoint word_starts (start : Z) (handle : list string) : list Z :=
  match handle with
  | [] => []
  | line :: handle' =>
      (if truthy line then [start] else [])
      ++ space_ends start (list_ascii_of_string line)
      ++ word_starts (start + Z.of_nat (String.length line)) handle'
  end.

End Item30.

(** ** Objects, the heap, and the iterator protocol *)

Abbreviation addr := positive (only parsing).

Inductive obj : Type :=
| OList (items : list num)
    (** a [list] *)
| OListIter (it_seq : option addr) (it_index : nat)
    (** a list iterator: the list it reads ([None] once it is exhausted) and
        the index of the next item *)
| OReadValues (data_path : string)
    (** an instance of class [ReadValues] *)
| OGen (gi_frame : option (Gen unit)).
    (** a generator object: its suspended frame ([None] once it has finished) *)

Abbreviation heap := (gmap positive obj) (only parsing).

(** A computation on the heap.  [None]: the fuel of a loop ran out before
    the loop ended. *)
Definition M (A : Type) : Type := heap → option (outcome A * heap).

Global Instance M_ret : MRet M := λ A a h, Some (Ok a, h).
Global Instance M_bind : MBind M := λ A B f m h,
  match m h with
  | Some (Ok a, h') => f a h'
  | Some (Raise e, h') => Some (Raise e, h')
  | None => None
  end.

Definition raise {A : Type} (e : exn) : M A := λ h, Some (Raise e, h).

Definition alloc (o : obj) : M addr := λ h,
  let a := fresh (dom h) in Some (Ok a, <[a:=o]> h).

(** [int(line)] for a str of ASCII characters: optional surrounding white
    space, an optional sign, then decimal digits, single underscores allowed
    between digits.  The ValueError carries the message without the quoted
    literal. *)
Definition is_space (c : ascii) : bool :=
  let n := nat_of_ascii c in
  ((9 <=? n) && (n <=? 13) || (n =? 32))%nat.

Definition digit_of (c : ascii) : option Z :=
  let n := nat_of_ascii c in
  if ((48 <=? n) && (n <=? 57))%nat then Some (Z.of_nat n - 48) else None.

Fixpoint lstrip (l : list ascii) : list ascii :=
  match l with
  | c :: l' => if is_space c then lstrip l' else l
  | [] => []
  end.

Definition strip (l : list ascii) : list ascii :=
  reverse (lstrip (reverse (lstrip l))).

Fixpoint parse_digits (acc : Z) (after_digit : bool) (l : list ascii) : option Z :=
  match l with
  | [] => if after_digit then Some acc else None
  | c :: l' =>
      match digit_of c with
      | Some d => parse_digits (10 * acc + d) true l'
      | None =>
          if Ascii.eqb c "_" && after_digit then parse_digits acc false l'
          else None
      end
  end.

Definition int_ (line : string) : outcome Z :=
  let parsed :=
    match strip (list_ascii_of_string line) with
    | "+"%char :: digits => parse_digits 0 false digits
    | "-"%char :: digits => Z.opp <$> parse_digits 0 false digits
    | digits => parse_digits 0 false digits
    end in
  match parsed with
  | Some z => Ok z
  | None => Raise (ValueError "invalid literal for int() with base 10")
  end.

(** [line.isascii()]: every character of the str is below U+0080.  Beyond
    ASCII [int] also takes the white space and the decimal digits of other
    scripts, which [int_] does not read. *)
Definition isascii (line : string) : bool :=
  forallb (λ c, (nat_of_ascii c <? 128)%nat) (list_ascii_of_string line).

Section Item31.

(** The files the notebook reads, each as the list of its lines.  No cell
    writes a file, so the file system is a fixed environment. *)
Context (fs : gmap string (list string)).

(** [with open(data_path) as f: for line in f: body] *)
Definition for_line_of (data_path : string) (body : string → Gen unit) : Gen unit :=
  match fs !! data_path with
  | Some lines => for_each lines body
  | None => Throw (FileNotFoundError data_path)
  end.

Definition read_values (data_path : string) : Gen unit :=
  for_line_of data_path (λ line, n ← eval (int_ line); yield (VInt n)).

(** [ReadValues.__iter__(self)], with [self.data_path] as its argument. *)
Definition ReadValues_iter (data_path : string) : Gen unit :=
  for_line_of data_path (λ line, n ← eval (int_ line); yield (VInt n)).

(** Calling a generator function creates a generator object. *)
Definition call_gen (body : Gen unit) : M addr := alloc (OGen (Some body)).

(** [iter(x)]: a container hands out a new iterator; an iterator hands out
    itself. *)
Definition iter (x : addr) : M addr := λ h,
  match h !! x with
  | Some (OList _) => alloc (OListIter (Some x) 0) h
  | Some (OReadValues data_path) => call_gen (ReadValues_iter data_path) h
  | Some (OListIter _ _) | Some (OGen _) => Some (Ok x, h)
  | None => Some (Raise (SystemError "dangling reference"), h)
  end.

(** [next(it)] *)
Definition next (it : addr) : M num := λ h,
  match h !! it with
  | Some (OListIter (Some l) i) =>
      match h !! l with
      | Some (OList items) =>
          match items !! i with
          | Some v => Some (Ok v, <[it:=OListIter (Some l) (S i)]> h)
          | None => Some (Raise StopIteration, <[it:=OListIter None i]> h)
          end
      | _ => Some (Raise (SystemError "dangling reference"), h)
      end
  | Some (OListIter None _) => Some (Raise StopIteration, h)
  | Some (OGen (Some (Yield v k))) => Some (Ok v, <[it:=OGen (Some k)]> h)
  | Some (OGen (Some (Return _))) => Some (Raise StopIteration, <[it:=OGen None]> h)
  | Some (OGen (Some (Throw StopIteration))) =>
      Some (Raise (RuntimeError "generator raised StopIteration"), <[it:=OGen None]> h)
  | Some (OGen (Some (Throw e))) => Some (Raise e, <[it:=OGen None]> h)
  | Some (OGen None) => Some (Raise StopIteration, h)
  | Some (OList _) => Some (Raise (TypeError "'list' object is not an iterator"), h)
  | Some (OReadValues _) =>
      Some (Raise (TypeError "'ReadValues' object is not an iterator"), h)
  | None => Some (Raise (SystemError "dangling reference"), h)
  end.

(** The loop of [for value in it: body] on an iterator: [next] until
    StopIteration.  The body updates the function's local variables [acc]. *)
Fixpoint for_loop {A : Type} (fuel : nat) (it : addr)
    (body : A → num → outcome A) (acc : A) : M A := λ h,
  match fuel with
  | O => None
  | S fuel' =>
      match next it h with
      | Some (Ok v, h') =>
          match body acc v with
          | Ok acc' => for_loop fuel' it body acc' h'
          | Raise e => Some (Raise e, h')
          end
      | Some (Raise StopIteration, h') => Some (Ok acc, h')
      | Some (Raise e, h') => Some (Raise e, h')
      | None => None
      end
  end.

(** [for value in iterable: body] *)
Definition for_in {A : Type} (fuel : nat) (iterable : addr)
    (body : A → num → outcome A) (acc : A) : M A :=
  it ← iter iterable; for_loop fuel it body acc.

(** [sum(iterable)]: the items added left to right, starting from int 0,
    each float addition rounded (Python 3.7, the notebooks' kernel; from
    3.12 on [sum] compensates the rounding of float additions). *)
Definition sum_ (fuel : nat) (iterable : addr) : M num :=
  for_in fuel iterable py_add (VInt 0).

(** [list(iterable)]: a new list holding the items of one pass. *)
Definition list_ (fuel : nat) (iterable : addr) : M addr :=
  items ← for_in fuel iterable (λ items v, Ok (items ++ [v])) [];
  alloc (OList items).

(** [100 * value / total] *)
Definition percent_of (total value : num) : outcome num :=
  hundredfold ← py_mul (VInt 100) value;
  py_truediv hundredfold total.

(** [percent = 100 * value / total; result.append(percent)] *)
Definition append_percent (total : num) (result : list num) (value : num)
  : outcome (list num) :=
  percent ← percent_of total value;
  Ok (result ++ [percent]).

(** The list [result] is held by no one else until it is returned: it is
    given by its items.  [fuel] bounds the number of [next] calls of each
    loop. *)
Definition normalize (fuel : nat) (numbers : addr) : M (list num) :=
  total ← sum_ fuel numbers;
  for_in fuel numbers (append_percent total) [].

Definition normalize_copy (fuel : nat) (numbers : addr) : M (list num) :=
  numbers_copy ← list_ fuel numbers;
  total ← sum_ fuel numbers_copy;
  for_in fuel numbers_copy (append_percent total) [].

Definition normalize_func (fuel : nat) (get_iter : M addr) : M (list num) :=
  it ← get_iter;
  total ← sum_ fuel it;
  it ← get_iter;
  for_in fuel it (append_percent total) [].

(** [iter(numbers) is numbers] *)
Definition iter_is_self (numbers : addr) : M bool :=
  it ← iter numbers; mret (bool_decide (it = numbers)).

Definition normalize_defensive (fuel : nat) (numbers : addr) : M (list num) :=
  is_iterator ← iter_is_self numbers;
  if is_iterator : bool then raise (TypeError "Must supply a container")
  else
    total ← sum_ fuel numbers;
    for_in fuel numbers (append_percent total) [].

(** The guard of [normalize_defensive] as a classification of its argument. *)
Inductive source_kind : Type := Container | SinglePassIterator.

Definition classify (source : addr) : M source_kind :=
  is_iterator ← iter_is_self source;
  mret (if is_iterator : bool then SinglePassIterator else Container).

(** *** Observations used to state properties *)

(** The first [k] calls of [next(it)], each with what it returned or raised. *)
Fixpoint nexts (k : nat) (it : addr) (h : heap) : list (outcome num) * heap :=
  match k with
  | O => ([], h)
  | S k' =>
      match next it h with
      | Some (r, h') => let '(rs, h'') := nexts k' it h' in (r :: rs, h'')
      | None => ([], h)
      end
  end.

(** Calling a generator function and then [next] [k] times on what it
    returned. *)
Definition first_nexts (k : nat) (body : Gen unit) (h : heap) : list (outcome num) :=
  match call_gen body h with
  | Some (Ok it, h') => fst (nexts k it h')
  | _ => []
  end.

(** [x] is a container: a list or a [ReadValues] instance. *)
Definition is_container (h : heap) (x : addr) : Prop :=
  match h !! x with
  | Some (OList _) | Some (OReadValues _) => True
  | _ => False
  end.

(** [x] is an iterator: a list iterator or a generator object. *)
Definition is_iterator (h : heap) (x : addr) : Prop :=
  match h !! x with
  | Some (OListIter _ _) | Some (OGen _) => True
  | _ => False
  end.

(** The items one pass over container [c] yields, when the pass ends with
    StopIteration. *)
Definition contents (h : heap) (c : addr) : option (list num) :=
  match h !! c with
  | Some (OList items) => Some items
  | Some (OReadValues data_path) =>
      let body := ReadValues_iter data_path in
      if returns body then Some (outputs body) else None
  | _ => None
  end.

(** The items iterator [it] still yields, when it ends with StopIteration. *)
Definition remaining (h : heap) (it : addr) : option (list num) :=
  match h !! it with
  | Some (OListIter (Some l) i) =>
      match h !! l with
      | Some (OList items) => Some (drop i items)
      | _ => None
      end
  | Some (OListIter None _) => Some []
  | Some (OGen (Some body)) => if returns body then Some (outputs body) else None
  | Some (OGen None) => Some []
  | _ => None
  end.

(** [sum(items)] on a list given by its items. *)
Definition sum_of (items : list num) : outcome num :=
  fold_outcome py_add (VInt 0) items.

(** [normalize] read as a function of the items [xs] that one pass over a
    container yields: the total of a first pass, then a percentage for each
    item of a second pass. *)
Definition percentages (xs : list num) : outcome (list num) :=
  total ← sum_of xs; fold_outcome (append_percent total) [] xs.

(** Every object of [h] is still there, unchanged, in [h']. *)
Definition preserved (h h' : heap) : Prop :=
  ∀ x, is_Some (h !! x) → h' !! x = h !! x.

(** [total == 0] *)
Definition is_zero (total : num) : bool :=
  match total with
  | VInt z => z =? 0
  | VFloat f => PrimFloat.is_zero f
  end.

(** [value >= 0] *)
Definition is_nonneg (value : num) : bool :=
  match value with
  | VInt z => 0 <=? z
  | VFloat f => (0 <=? f)%float
  end.

(** The exact total of a list of ints. *)
Definition int_total (zs : list Z) : Z := foldr Z.add 0 zs.

(** When the first value is an int and the total a float, [100 * value] is
    converted to a float before the division is attempted. *)
Definition hundredfold_converts (value total : num) : Prop :=
  match value, total with
  | VInt z, VFloat _ => ∃ f, float_of_int (100 * z) = Ok f
  | _, _ => True
  end.

(** What [next(it)] depends on: the iterator, and the list it reads. *)
Definition view (h : heap) (it : addr) : option obj * option obj :=
  (h !! it,
   match h !! it with
   | Some (OListIter (Some l) _) => h !! l
   | _ => None
   end).

(** The test [abs(total - 100.0) <= 1e-9]. *)
Definition within_tolerance (total : num) : bool :=
  match total with
  | VFloat f => (abs (f - 100) <=? 1e-9)%float
  | VInt z => z =? 100
  end.

End Item31.

(** *** The data of the notebook's cells *)

(** The newline that ends a line read from a file. *)
Definition nl : string := String (ascii_of_nat 10) EmptyString.

Definition path : string := "../data/values.txt".

(** A file system where [path] holds the three values of the example. *)
Definition values_txt : gmap string (list string) :=
  {[ path := ["15" +:+ nl; "35" +:+ nl; "80" +:+ nl] ]}.

(** [values = [15, 35, 80]] at address 1 and [ReadValues(path)] at address 2. *)
Definition values_heap : gmap positive obj :=
  {[ 1%positive := OList [VInt 15; VInt 35; VInt 80];
     2%positive := OReadValues path ]}.

(** A long list of ints: one large value, then 160000 ones; total
    15000000000000000. *)
Definition long_list : list num :=
  VInt 14999999999840000 :: replicate (Z.to_nat 160000) (VInt 1).

(** [it = iter(values)] at address 3. *)
Definition iterator_heap : gmap positive obj :=
  <[3%positive:=OListIter (Some 1%positive) 0]> values_heap.

(** * Properties *)

(** ** The heap monad *)

Lemma bind_ok {A B : Type} (m : M A) (f : A → M B) h a h' :
  m h = Some (Ok a, h') → (x ← m; f x) h = f a h'.
Proof. intros E. unfold mbind, M_bind. by rewrite E. Qed.

Lemma bind_raise {A B : Type} (m : M A) (f : A → M B) h e h' :
  m h = Some (Raise e, h') → (x ← m; f x) h = Some (Raise e, h').
Proof. intros E. unfold mbind, M_bind. by rewrite E. Qed.

Lemma alloc_fresh (h : gmap positive obj) : h !! fresh (dom h) = None.
Proof. apply not_elem_of_dom, is_fresh. Qed.

Lemma alloc_spec (o : obj) (h : gmap positive obj) :
  alloc o h = Some (Ok (fresh (dom h)), <[fresh (dom h):=o]> h).
Proof. reflexivity. Qed.

(** ** Folds *)

Lemma fold_outcome_app {A B : Type} (f : A → B → outcome A) acc (l1 l2 : list B) :
  fold_outcome f acc (l1 ++ l2) = acc' ← fold_outcome f acc l1; fold_outcome f acc' l2.
Proof.
  revert acc. induction l1 as [|x l1 IH]; intros acc; simpl; [done|].
  destruct (f acc x) as [acc'|e]; simpl; [apply IH|done].
Qed.

Lemma fold_collect (acc l : list num) :
  fold_outcome (λ items v, Ok (items ++ [v])) acc l = Ok (acc ++ l).
Proof.
  revert acc. induction l as [|x l IH]; intros acc; simpl.
  - by rewrite app_nil_r.
  - rewrite IH. by rewrite <- app_assoc.
Qed.

(** ** [next] touches only its iterator *)

Lemma next_total (it : positive) (h : gmap positive obj) :
  ∃ r h', next it h = Some (r, h').
Proof.
  unfold next. destruct (h !! it) as [[items|[l|] i|path|[[r|v k|[]]|]]|]; eauto.
  destruct (h !! l) as [[items| | |]|]; eauto.
  destruct (items !! i); eauto.
Qed.

Lemma next_frame (it : positive) (h h' : gmap positive obj) r :
  next it h = Some (r, h') → h' = h ∨ ∃ o, h' = <[it:=o]> h.
Proof.
  unfold next. intros E.
  destruct (h !! it) as [[items|[l|] i|path|[[r'|v k|[]]|]]|] eqn:Eit;
    try (simplify_eq; eauto; fail).
  destruct (h !! l) as [[items| | |]|]; try (simplify_eq; eauto; fail).
  destruct (items !! i); simplify_eq; eauto.
Qed.

Lemma next_other (it x : positive) (h h' : gmap positive obj) r :
  next it h = Some (r, h') → x ≠ it → h' !! x = h !! x.
Proof.
  intros E Hne. destruct (next_frame _ _ _ _ E) as [->|[o ->]]; [done|].
  by rewrite lookup_insert_ne.
Qed.

(** ** What an iterator still yields *)

Lemma drop_cons_lookup {A : Type} (l : list A) i x xs :
  drop i l = x :: xs → l !! i = Some x ∧ drop (S i) l = xs.
Proof.
  intros E. assert (l !! i = Some x) as Hi.
  { rewrite <- (Nat.add_0_r i), <- lookup_drop. by rewrite E. }
  split; [done|]. rewrite (drop_S _ _ _ Hi) in E. congruence.
Qed.

Lemma next_remaining_cons (h : gmap positive obj) it v vs :
  remaining h it = Some (v :: vs) →
  ∃ h', next it h = Some (Ok v, h') ∧ remaining h' it = Some vs.
Proof.
  unfold remaining, next.
  destruct (h !! it) as [[items|[l|] i|path|[body|]]|] eqn:Eit; try done.
  - destruct (h !! l) as [[items| | |]|] eqn:El; try done.
    intros [= E]. apply drop_cons_lookup in E as [Hi Hd]. rewrite Hi.
    eexists; split; [done|].
    assert (l ≠ it) by (intros ->; congruence).
    rewrite lookup_insert_eq, lookup_insert_ne, El by done. by rewrite Hd.
  - destruct body as [r|w k|e]; simpl; try done.
    destruct (returns k) eqn:Ek; [|done]. intros [= -> <-].
    eexists; split; [done|]. by rewrite lookup_insert_eq, Ek.
Qed.

Lemma next_remaining_nil (h : gmap positive obj) it :
  remaining h it = Some [] →
  ∃ h', next it h = Some (Raise StopIteration, h') ∧ remaining h' it = Some [].
Proof.
  unfold remaining, next.
  destruct (h !! it) as [[items|[l|] i|path|[body|]]|] eqn:Eit; try done.
  - destruct (h !! l) as [[items| | |]|] eqn:El; try done.
    intros [= E]. apply drop_nil_inv, lookup_ge_None in E. rewrite E.
    eexists; split; [done|]. by rewrite lookup_insert_eq.
  - intros _. eexists; split; [done|]. by rewrite Eit.
  - destruct body as [r|w k|e]; simpl; try done.
    + intros _. eexists; split; [done|]. by rewrite lookup_insert_eq.
    + by destruct (returns k).
  - intros _. eexists; split; [done|]. by rewrite Eit.
Qed.

(** A loop over an iterator that still yields [xs] folds its body over [xs],
    given fuel for one [next] more than there are items. *)
Lemma for_loop_remaining {A : Type} (body : A → num → outcome A) xs :
  ∀ fuel it acc (h : gmap positive obj),
  remaining h it = Some xs → (length xs < fuel)%nat →
  ∃ h', for_loop fuel it body acc h = Some (fold_outcome body acc xs, h')
        ∧ (∀ x, x ≠ it → h' !! x = h !! x)
        ∧ (∀ acc', fold_outcome body acc xs = Ok acc' → remaining h' it = Some []).
Proof.
  induction xs as [|v vs IH]; intros fuel it acc h Hrem Hfuel;
    (destruct fuel as [|fuel]; [simpl in Hfuel; lia|]); simpl.
  - destruct (next_remaining_nil _ _ Hrem) as (h' & En & Hrem').
    rewrite En. exists h'. split_and!; [done| |done].
    intros x Hx. by eapply next_other.
  - destruct (next_remaining_cons _ _ _ _ Hrem) as (h' & En & Hrem').
    rewrite En. destruct (body acc v) as [acc'|e] eqn:Eb; simpl.
    + destruct (IH fuel it acc' h' Hrem') as (h'' & El & Hfr & Hex);
        [simpl in Hfuel; lia|].
      exists h''. split_and!; [done| |done].
      intros x Hx. rewrite Hfr by done. by eapply next_other.
    + exists h'. split_and!; [done| |done].
      intros x Hx. by eapply next_other.
Qed.

(** ** [iter] and the loops over containers and iterators *)

Section loops.
Context (fs : gmap string (list string)).

Lemma preserved_refl (h : gmap positive obj) : preserved h h.
Proof. by intros x _. Qed.

Lemma preserved_trans (h1 h2 h3 : gmap positive obj) :
  preserved h1 h2 → preserved h2 h3 → preserved h1 h3.
Proof.
  intros H12 H23 x Hx. rewrite H23, H12; [done..|]. by rewrite H12.
Qed.

Lemma preserved_insert_fresh (h : gmap positive obj) a o :
  h !! a = None → preserved h (<[a:=o]> h).
Proof.
  intros Ha x [o' Hx]. rewrite lookup_insert_ne; [done|]. congruence.
Qed.

Lemma preserved_contents (h h' : gmap positive obj) c xs :
  preserved h h' → contents fs h c = Some xs → contents fs h' c = Some xs.
Proof.
  unfold contents. intros Hp E.
  destruct (h !! c) as [o|] eqn:Ec; [|done]. by rewrite Hp, Ec by (by rewrite Ec).
Qed.

Lemma preserved_remaining (h h' : gmap positive obj) it xs :
  preserved h h' → remaining h it = Some xs → remaining h' it = Some xs.
Proof.
  unfold remaining. intros Hp E.
  destruct (h !! it) as [o|] eqn:Eit; [|done]. rewrite Hp, Eit by (by rewrite Eit).
  destruct o as [|[l|] i| |]; try done.
  destruct (h !! l) as [o|] eqn:El; [|done]. by rewrite Hp, El by (by rewrite El).
Qed.

Lemma contents_is_container (h : gmap positive obj) c xs :
  contents fs h c = Some xs → is_container h c.
Proof.
  unfold contents, is_container. by destruct (h !! c) as [[]|].
Qed.

Lemma remaining_is_iterator (h : gmap positive obj) it xs :
  remaining h it = Some xs → is_iterator h it.
Proof.
  unfold remaining, is_iterator. by destruct (h !! it) as [[]|].
Qed.

(** A container hands out a new iterator, positioned before its first item. *)
Lemma iter_container (h : gmap positive obj) c xs :
  contents fs h c = Some xs →
  ∃ it h', iter fs c h = Some (Ok it, h') ∧ h !! it = None ∧ it ≠ c
           ∧ preserved h h' ∧ remaining h' it = Some xs.
Proof.
  unfold contents, iter. intros E.
  destruct (h !! c) as [[items| |path|]|] eqn:Ec; try done.
  - injection E as ->. eexists _, _. split; [apply alloc_spec|].
    pose proof (alloc_fresh h) as Hf.
    assert (fresh (dom h) ≠ c) as Hne by (intros Heq; rewrite Heq in Hf; congruence).
    split_and!; [done|done|by apply preserved_insert_fresh|].
    unfold remaining. by rewrite lookup_insert_eq, lookup_insert_ne, Ec.
  - destruct (returns (ReadValues_iter fs path)) eqn:Er; [|done]. injection E as <-.
    eexists _, _. split; [apply alloc_spec|].
    pose proof (alloc_fresh h) as Hf.
    assert (fresh (dom h) ≠ c) as Hne by (intros Heq; rewrite Heq in Hf; congruence).
    split_and!; [done|done|by apply preserved_insert_fresh|].
    unfold remaining. by rewrite lookup_insert_eq, Er.
Qed.

(** An iterator hands out itself. *)
Lemma iter_iterator (h : gmap positive obj) it :
  is_iterator h it → iter fs it h = Some (Ok it, h).
Proof.
  unfold is_iterator, iter. by destruct (h !! it) as [[]|].
Qed.

Lemma for_in_container {A : Type} (body : A → num → outcome A) fuel c acc xs
    (h : gmap positive obj) :
  contents fs h c = Some xs → (length xs < fuel)%nat →
  ∃ h', for_in fs fuel c body acc h = Some (fold_outcome body acc xs, h')
        ∧ preserved h h'.
Proof.
  intros Hc Hfuel. destruct (iter_container _ _ _ Hc) as (it & h1 & Ei & Hit & _ & Hp & Hr).
  destruct (for_loop_remaining body xs fuel it acc h1 Hr Hfuel) as (h2 & El & Hfr & _).
  exists h2. split.
  - unfold for_in. by rewrite (bind_ok _ _ _ _ _ Ei).
  - intros x Hx. rewrite Hfr, Hp; [done..|].
    intros ->. destruct Hx; congruence.
Qed.

Lemma for_in_iterator {A : Type} (body : A → num → outcome A) fuel it acc xs
    (h : gmap positive obj) :
  remaining h it = Some xs → (length xs < fuel)%nat →
  ∃ h', for_in fs fuel it body acc h = Some (fold_outcome body acc xs, h')
        ∧ (∀ x, x ≠ it → h' !! x = h !! x)
        ∧ (∀ acc', fold_outcome body acc xs = Ok acc' → remaining h' it = Some []).
Proof.
  intros Hr Hfuel.
  destruct (for_loop_remaining body xs fuel it acc h Hr Hfuel) as (h2 & El & Hfr & Hex).
  exists h2. split; [|done].
  unfold for_in.
  by rewrite (bind_ok _ _ _ _ _ (iter_iterator _ _ (remaining_is_iterator _ _ _ Hr))).
Qed.

End loops.

(** ** The normalisation functions on containers and on iterators *)

Section normalisation.
Context (fs : gmap string (list string)).

Lemma sum_container fuel c xs (h : gmap positive obj) :
  contents fs h c = Some xs → (length xs < fuel)%nat →
  ∃ h', sum_ fs fuel c h = Some (sum_of xs, h') ∧ preserved h h'.
Proof. apply for_in_container. Qed.

Lemma normalize_container fuel c xs (h : gmap positive obj) :
  contents fs h c = Some xs → (length xs < fuel)%nat →
  ∃ h', normalize fs fuel c h = Some (percentages xs, h') ∧ preserved h h'.
Proof.
  intros Hc Hfuel. unfold normalize, percentages.
  destruct (sum_container fuel c xs h Hc Hfuel) as (h1 & Es & Hp1).
  destruct (sum_of xs) as [total|e]; simpl.
  - rewrite (bind_ok _ _ _ _ _ Es).
    destruct (for_in_container fs (append_percent total) fuel c [] xs h1)
      as (h2 & Ef & Hp2); [by eapply preserved_contents|done|].
    exists h2. split; [done|]. by eapply preserved_trans.
  - rewrite (bind_raise _ _ _ _ _ Es). by exists h1.
Qed.

(** On an iterator the first pass leaves nothing for the second. *)
Lemma normalize_iterator fuel it xs (h : gmap positive obj) :
  remaining h it = Some xs → (length xs < fuel)%nat →
  ∃ h', normalize fs fuel it h = Some (total ← sum_of xs; Ok [], h')
        ∧ (∀ x, x ≠ it → h' !! x = h !! x).
Proof.
  intros Hr Hfuel. unfold normalize.
  destruct (for_in_iterator fs py_add fuel it (VInt 0) xs h Hr Hfuel)
    as (h1 & Es & Hfr1 & Hex). fold (sum_ fs fuel it) in Es. fold (sum_of xs) in Es, Hex.
  destruct (sum_of xs) as [total|e]; simpl.
  - rewrite (bind_ok _ _ _ _ _ Es).
    destruct (for_in_iterator fs (append_percent total) fuel it [] [] h1)
      as (h2 & Ef & Hfr2 & _); [by eapply Hex|simpl; lia|].
    exists h2. split; [done|]. intros x Hx. by rewrite Hfr2, Hfr1.
  - rewrite (bind_raise _ _ _ _ _ Es). by exists h1.
Qed.

(** [list(x)] makes a new list of the items of one pass. *)
Lemma list_container fuel c xs (h : gmap positive obj) :
  contents fs h c = Some xs → (length xs < fuel)%nat →
  ∃ l h', list_ fs fuel c h = Some (Ok l, h') ∧ h !! l = None
          ∧ h' !! l = Some (OList xs) ∧ preserved h h'.
Proof.
  intros Hc Hfuel. unfold list_.
  destruct (for_in_container fs (λ items v, Ok (items ++ [v])) fuel c [] xs h Hc Hfuel)
    as (h1 & Ef & Hp1). rewrite fold_collect in Ef. simpl in Ef.
  rewrite (bind_ok _ _ _ _ _ Ef). eexists _, _. split; [apply alloc_spec|].
  pose proof (alloc_fresh h1) as Hf. split_and!.
  - destruct (h !! fresh (dom h1)) eqn:E; [|done].
    rewrite <- (Hp1 (fresh (dom h1))) in E by (by rewrite E). congruence.
  - by rewrite lookup_insert_eq.
  - eapply preserved_trans; [done|]. by apply preserved_insert_fresh.
Qed.

Lemma list_iterator fuel it xs (h : gmap positive obj) :
  remaining h it = Some xs → (length xs < fuel)%nat →
  ∃ l h', list_ fs fuel it h = Some (Ok l, h') ∧ h' !! l = Some (OList xs)
          ∧ l ≠ it ∧ remaining h' it = Some [].
Proof.
  intros Hr Hfuel. unfold list_.
  destruct (for_in_iterator fs (λ items v, Ok (items ++ [v])) fuel it [] xs h Hr Hfuel)
    as (h1 & Ef & Hfr & Hex). rewrite fold_collect in Ef, Hex. simpl in Ef.
  rewrite (bind_ok _ _ _ _ _ Ef). eexists _, _. split; [apply alloc_spec|].
  pose proof (alloc_fresh h1) as Hf. specialize (Hex _ eq_refl).
  assert (fresh (dom h1) ≠ it) as Hne.
  { intros Heq. rewrite Heq in Hf. unfold remaining in Hex. by rewrite Hf in Hex. }
  split_and!; [by rewrite lookup_insert_eq|done|].
  unfold remaining in *. rewrite lookup_insert_ne by done.
  destruct (h1 !! it) as [[items|[l|] i|path|[body|]]|] eqn:Eit; try done.
  destruct (h1 !! l) as [[items| | |]|] eqn:El; try done.
  assert (fresh (dom h1) ≠ l) by (intros Heq; rewrite Heq in Hf; congruence).
  by rewrite lookup_insert_ne, El.
Qed.

Lemma normalize_copy_unfold fuel numbers :
  normalize_copy fs fuel numbers =
  (numbers_copy ← list_ fs fuel numbers; normalize fs fuel numbers_copy).
Proof. reflexivity. Qed.

Lemma normalize_copy_iterator fuel it xs (h : gmap positive obj) :
  remaining h it = Some xs → (length xs < fuel)%nat →
  ∃ buffer h', normalize_copy fs fuel it h = Some (percentages xs, h')
               ∧ h' !! buffer = Some (OList xs) ∧ remaining h' it = Some [].
Proof.
  intros Hr Hfuel. rewrite normalize_copy_unfold.
  destruct (list_iterator fuel it xs h Hr Hfuel) as (l & h1 & El & Hl & _ & Hr1).
  rewrite (bind_ok _ _ _ _ _ El).
  destruct (normalize_container fuel l xs h1) as (h2 & En & Hp); [|done|].
  { unfold contents. by rewrite Hl. }
  exists l, h2. split_and!; [done| |by eapply preserved_remaining].
  by rewrite Hp, Hl by (by rewrite Hl).
Qed.

Lemma normalize_copy_container fuel c xs (h : gmap positive obj) :
  contents fs h c = Some xs → (length xs < fuel)%nat →
  ∃ copy h', normalize_copy fs fuel c h = Some (percentages xs, h')
             ∧ preserved h h' ∧ h !! copy = None ∧ h' !! copy = Some (OList xs).
Proof.
  intros Hc Hfuel. rewrite normalize_copy_unfold.
  destruct (list_container fuel c xs h Hc Hfuel) as (l & h1 & El & Hnew & Hl & Hp1).
  rewrite (bind_ok _ _ _ _ _ El).
  destruct (normalize_container fuel l xs h1) as (h2 & En & Hp2); [|done|].
  { unfold contents. by rewrite Hl. }
  exists l, h2. split_and!; [done|by eapply preserved_trans|done|].
  by rewrite Hp2, Hl by (by rewrite Hl).
Qed.

End normalisation.

(** ** Rounding never overflows on a bounded quotient *)

Lemma digits2_pos_size p : digits2_pos p = Pos.size p.
Proof. induction p; simpl; congruence. Qed.

Lemma Zdigits2_nonneg z : 0 ≤ Zdigits2 z.
Proof. destruct z; simpl; lia. Qed.

Lemma Zdigits2_le z k : 0 ≤ z < 2 ^ k → 0 ≤ k → Zdigits2 z ≤ k.
Proof.
  intros [Hz Hlt] Hk. destruct z as [|p|p]; simpl; [lia| |lia].
  rewrite digits2_pos_size.
  destruct (Z.le_gt_cases (Z.pos (Pos.size p)) k) as [|Hgt]; [done|].
  exfalso. pose proof (Pos.size_le p) as Hs.
  assert (2 ^ Z.pos (Pos.size p) ≤ 2 * Z.pos p) as Hs'.
  { rewrite <- Pos2Z.inj_pow. change (2 * Z.pos p) with (Z.pos p~0). lia. }
  assert (2 ^ (k + 1) ≤ 2 ^ Z.pos (Pos.size p)) by (apply Z.pow_le_mono_r; lia).
  rewrite Z.pow_add_r in * by lia. lia.
Qed.

Lemma Zdigits2_gt z : 0 ≤ z → z < 2 ^ Zdigits2 z.
Proof.
  intros Hz. destruct z as [|p|p]; simpl; [lia| |lia].
  rewrite digits2_pos_size. pose proof (Pos.size_gt p) as Hs.
  rewrite <- Pos2Z.inj_pow. lia.
Qed.

Lemma shr_1_digits s :
  Zdigits2 (shr_m (shr_1 s)) = Z.max 0 (Zdigits2 (shr_m s) - 1).
Proof.
  destruct s as [m r t]. unfold shr_1.
  destruct m as [|[p|p|]|[p|p|]]; simpl; lia.
Qed.

Lemma iter_shr_1_digits p : ∀ s,
  Zdigits2 (shr_m (SpecFloat.iter_pos shr_1 p s))
  = Z.max 0 (Zdigits2 (shr_m s) - Z.pos p).
Proof.
  induction p as [p IH|p IH|]; intros s; simpl.
  - rewrite !IH, shr_1_digits. lia.
  - rewrite !IH. lia.
  - apply shr_1_digits.
Qed.

Lemma shr_1_nonneg s : 0 ≤ shr_m s → 0 ≤ shr_m (shr_1 s).
Proof.
  destruct s as [m r t]. unfold shr_1.
  destruct m as [|[p|p|]|[p|p|]]; simpl; lia.
Qed.

Lemma iter_shr_1_nonneg p : ∀ s,
  0 ≤ shr_m s → 0 ≤ shr_m (SpecFloat.iter_pos shr_1 p s).
Proof.
  induction p as [p IH|p IH|]; intros s Hs; simpl.
  - by apply IH, IH, shr_1_nonneg.
  - by apply IH, IH.
  - by apply shr_1_nonneg.
Qed.

Lemma round_nearest_even_bounds m l :
  0 ≤ m → 0 ≤ round_nearest_even m l ≤ m + 1.
Proof.
  intros Hm. unfold round_nearest_even.
  destruct l as [|[]]; try lia. destruct (Z.even m); lia.
Qed.

Lemma round_nearest_even_digits m l :
  0 ≤ m → Zdigits2 (round_nearest_even m l) ≤ Zdigits2 m + 1.
Proof.
  intros Hm. pose proof (round_nearest_even_bounds m l Hm).
  pose proof (Zdigits2_gt m Hm). pose proof (Zdigits2_nonneg m).
  apply Zdigits2_le; [|lia]. rewrite Z.pow_add_r by lia. lia.
Qed.

Lemma shr_record_of_loc_m m l : shr_m (shr_record_of_loc m l) = m.
Proof. by destruct l as [|[]]. Qed.

(** Rounding a non-negative mantissa whose value stays below [2 ^ 1023]
    gives no infinity. *)
Lemma binary_round_aux_finite sx m e l :
  0 ≤ m → e ≤ 971 → Zdigits2 m + e ≤ 1023 →
  ∀ s, binary_round_aux prec emax sx m e l ≠ S754_infinity s.
Proof.
  intros Hm He Hd s. unfold binary_round_aux.
  destruct (shr_fexp prec emax m e l) as [mrs1 e1] eqn:E1.
  destruct (shr_fexp prec emax _ e1 loc_Exact) as [mrs2 e2] eqn:E2.
  assert (0 ≤ shr_m mrs1 ∧ e1 ≤ 971 ∧ Zdigits2 (shr_m mrs1) + e1 ≤ 1023)
    as (Hm1 & He1 & Hd1).
  { unfold shr_fexp, shr in E1. pose proof (Zdigits2_nonneg m).
    destruct (fexp prec emax (Zdigits2 m + e) - e) as [|p|p] eqn:En;
      injection E1 as <- <-; rewrite ?shr_record_of_loc_m; try done.
    unfold fexp, SpecFloat.emin, prec, emax in En.
    split; [|split].
    - apply iter_shr_1_nonneg. by rewrite shr_record_of_loc_m.
    - lia.
    - rewrite iter_shr_1_digits, shr_record_of_loc_m. lia. }
  set (m1 := round_nearest_even (shr_m mrs1) (loc_of_shr_record mrs1)) in *.
  pose proof (round_nearest_even_digits (shr_m mrs1) (loc_of_shr_record mrs1) Hm1) as Hr.
  fold m1 in Hr.
  assert (e2 ≤ 971) as He2.
  { unfold shr_fexp, shr in E2.
    destruct (fexp prec emax (Zdigits2 m1 + e1) - e1) as [|p|p] eqn:En;
      injection E2 as <- <-; try done.
    unfold fexp, SpecFloat.emin, prec, emax in En. lia. }
  destruct (shr_m mrs2); try done.
  change (Z.sub emax prec) with 971. by rewrite (proj2 (Z.leb_le _ _) He2).
Qed.

Lemma SFdiv_ints_finite a b :
  0 ≤ a → 0 < b → a < 2 ^ 1023 * b →
  ∀ s, SFdiv prec emax (sf_of_int a) (sf_of_int b) ≠ S754_infinity s.
Proof.
  intros Ha Hb Hab s. destruct b as [|pb|pb]; try lia.
  destruct a as [|pa|pa]; try lia; [done|]. simpl.
  destruct (SFdiv_core_binary prec emax (Z.pos pa) 0 (Z.pos pb) 0) as [[q e'] l] eqn:Ec.
  unfold SFdiv_core_binary in Ec.
  set (d := fexp prec emax (Zdigits2 (Z.pos pa) + 0 - (Zdigits2 (Z.pos pb) + 0))) in *.
  set (e0 := Z.min d (0 - 0)) in *.
  assert (e0 ≤ 0) as He0 by (unfold e0; lia).
  set (m' := match 0 - 0 - e0 with
             | Z.pos _ => Z.shiftl (Z.pos pa) (0 - 0 - e0)
             | 0 => Z.pos pa
             | Z.neg _ => 0
             end) in *.
  assert (m' = Z.pos pa * 2 ^ (- e0)) as Hm'.
  { unfold m'. destruct (0 - 0 - e0) as [|p|p] eqn:Es; [|..|lia].
    - replace (- e0) with 0 by lia. lia.
    - rewrite Z.shiftl_mul_pow2 by lia. f_equal. f_equal. lia. }
  clearbody m'.
  destruct (Z.div_eucl m' (Z.pos pb)) as [q' r] eqn:Ed. injection Ec as <- <- <-.
  assert (q' = m' / Z.pos pb) as Hq by (unfold Z.div; by rewrite Ed).
  assert (0 < 2 ^ (- e0)) by (apply Z.pow_pos_nonneg; lia).
  assert (0 ≤ q') by (rewrite Hq; apply Z.div_pos; lia).
  assert (q' < 2 ^ (1023 - e0)).
  { rewrite Hq. apply Z.div_lt_upper_bound; [lia|].
    replace (1023 - e0) with (1023 + - e0) by lia. rewrite Z.pow_add_r by lia. nia. }
  apply binary_round_aux_finite; [done|lia|].
  assert (Zdigits2 q' ≤ 1023 - e0) by (apply Zdigits2_le; lia). lia.
Qed.

(** Int true division of a non-negative int by a positive one raises nothing
    when the quotient is below [2 ^ 1023]. *)
Lemma int_truediv_ok a b :
  0 ≤ a → 0 < b → a < 2 ^ 1023 * b → ∃ q, int_truediv a b = Ok q.
Proof.
  intros Ha Hb Hab. unfold int_truediv.
  destruct (Z.eqb_spec b 0) as [->|_]; [lia|].
  pose proof (SFdiv_ints_finite a b Ha Hb Hab) as Hfin.
  destruct (SFdiv prec emax (sf_of_int a) (sf_of_int b)) as [s|s| |s m e]; eauto.
  by destruct (Hfin s).
Qed.

(** ** Percentages of ints *)

Lemma sum_of_ints_from (acc : Z) (zs : list Z) :
  fold_outcome py_add (VInt acc) (VInt <$> zs) = Ok (VInt (acc + int_total zs)).
Proof.
  revert acc. induction zs as [|z zs IH]; intros acc; simpl.
  - by rewrite Z.add_0_r.
  - rewrite IH. do 2 f_equal. unfold int_total. simpl. lia.
Qed.

Lemma sum_of_ints (zs : list Z) : sum_of (VInt <$> zs) = Ok (VInt (int_total zs)).
Proof. unfold sum_of. by rewrite sum_of_ints_from. Qed.

Lemma fold_append_percent (total : num) (xs acc : list num) :
  fold_outcome (append_percent total) acc xs
  = ps ← mapM (percent_of total) xs; Ok (acc ++ ps).
Proof.
  revert acc. induction xs as [|x xs IH]; intros acc; simpl.
  - by rewrite app_nil_r.
  - change (append_percent total acc x)
      with (percent_of total x ≫= λ percent, Ok (acc ++ [percent])).
    destruct (percent_of total x) as [p|e]; simpl; [|done].
    rewrite IH. destruct (mapM (percent_of total) xs) as [ps|e]; simpl; [|done].
    by rewrite <- app_assoc.
Qed.

Lemma mapM_outcome_length {A B : Type} (f : A → outcome B) (xs : list A) ys :
  mapM f xs = Ok ys → length ys = length xs.
Proof.
  revert ys. induction xs as [|x xs IH]; intros ys; simpl.
  - by intros [= <-].
  - destruct (f x) as [y|e]; simpl; [|done].
    destruct (mapM f xs) as [ys'|e]; simpl; [|done].
    intros [= <-]. simpl. f_equal. by apply IH.
Qed.

Lemma mapM_outcome_Forall2 {A B : Type} (f : A → outcome B) (xs : list A) ys :
  mapM f xs = Ok ys → Forall2 (λ x y, f x = Ok y) xs ys.
Proof.
  revert ys. induction xs as [|x xs IH]; intros ys; simpl.
  - intros [= <-]. constructor.
  - destruct (f x) as [y|e] eqn:Ex; simpl; [|done].
    destruct (mapM f xs) as [ys'|e]; simpl; [|done].
    intros [= <-]. constructor; [done|]. by apply IH.
Qed.

Lemma percentages_length (xs ps : list num) :
  percentages xs = Ok ps → length ps = length xs.
Proof.
  unfold percentages. destruct (sum_of xs) as [total|e]; simpl; [|done].
  rewrite fold_append_percent. intros E.
  destruct (mapM (percent_of total) xs) as [ps'|e] eqn:Em; simpl in E; [|done].
  injection E as <-. by eapply mapM_outcome_length.
Qed.

Lemma percent_of_int (total z : Z) :
  0 ≤ z ≤ total → 0 < total →
  ∃ q, percent_of (VInt total) (VInt z) = Ok (VFloat q).
Proof.
  intros Hz Ht. unfold percent_of. simpl.
  destruct (int_truediv_ok (100 * z) total) as [q Eq]; [lia|lia| |].
  - assert (100 < 2 ^ 1023) by (apply Z.log2_lt_pow2; [lia|by vm_compute]). nia.
  - rewrite Eq. by exists q.
Qed.

Lemma int_total_bounds (zs : list Z) :
  Forall (λ z, 0 ≤ z) zs → 0 ≤ int_total zs ∧ Forall (λ z, 0 ≤ z ≤ int_total zs) zs.
Proof.
  induction 1 as [|z zs Hz _ [IH1 IH2]]; unfold int_total in *; simpl.
  - split; [lia|constructor].
  - split; [lia|]. constructor; [lia|].
    eapply Forall_impl; [exact IH2|]. simpl. intros; lia.
Qed.

Lemma mapM_percent_of_ints (total : Z) (zs : list Z) :
  Forall (λ z, 0 ≤ z ≤ total) zs → 0 < total →
  ∃ ps, mapM (percent_of (VInt total)) (VInt <$> zs) = Ok ps
        ∧ Forall2 (λ z p, percent_of (VInt total) (VInt z) = Ok p) zs ps.
Proof.
  intros Hzs Ht. induction Hzs as [|z zs Hz _ [ps [Em Hps]]].
  - exists []. by split; [|constructor].
  - destruct (percent_of_int total z Hz Ht) as [q Eq].
    exists (VFloat q :: ps). split; [|by constructor].
    rewrite fmap_cons. simpl. rewrite Eq. simpl. by rewrite Em.
Qed.

Lemma mapM_replicate {A B : Type} (f : A → outcome B) n x y :
  f x = Ok y → mapM f (replicate n x) = Ok (replicate n y).
Proof.
  intros E. induction n as [|n IH]; simpl; [done|]. by rewrite E, IH.
Qed.

Lemma mapM_cons_ok {A B : Type} (f : A → outcome B) x l y k :
  f x = Ok y → mapM f l = Ok k → mapM f (x :: l) = Ok (y :: k).
Proof. intros Ex El. simpl. by rewrite Ex, El. Qed.

Lemma percentages_ok (xs ps : list num) total :
  sum_of xs = Ok total → mapM (percent_of total) xs = Ok ps →
  percentages xs = Ok ps.
Proof.
  intros Es Em. unfold percentages. rewrite Es. simpl.
  by rewrite fold_append_percent, Em.
Qed.

(** * The claims about [normalize] and its variants *)

Section normalize_claims.
Context (fs : gmap string (list string)).

(** C1 (as amended).  For every container of numbers whose total can be
    formed, a list that [normalize] returns has the length of the input and
    the float [100 * value_i / total] as its i-th element; and for a
    container of ints, none negative, with a nonzero total, [normalize] does
    return such a list: no step raises. *)
Theorem normalize_percentages fuel (h : gmap positive obj) numbers xs total :
  contents fs h numbers = Some xs →
  sum_of xs = Ok total →
  (length xs < fuel)%nat →
  ∃ r h', normalize fs fuel numbers h = Some (r, h')
    ∧ (∀ ps, r = Ok ps →
         length ps = length xs
         ∧ Forall2 (λ x p, percent_of total x = Ok p) xs ps)
    ∧ (∀ zs, xs = VInt <$> zs → Forall (λ z, 0 ≤ z) zs → int_total zs ≠ 0 →
         ∃ ps, r = Ok ps).
Proof.
  intros Hc Hs Hfuel.
  destruct (normalize_container fs fuel numbers xs h Hc Hfuel) as (h' & En & _).
  exists (percentages xs), h'. split; [done|].
  assert (percentages xs = ps ← mapM (percent_of total) xs; Ok ps) as ->.
  { unfold percentages. rewrite Hs. simpl. by rewrite fold_append_percent. }
  split.
  - intros ps E. destruct (mapM (percent_of total) xs) as [ps'|e] eqn:Em; [|done].
    injection E as ->. split.
    + by eapply mapM_outcome_length.
    + by apply mapM_outcome_Forall2.
  - intros zs -> Hnn Htot. rewrite sum_of_ints in Hs. injection Hs as <-.
    destruct (int_total_bounds zs Hnn) as [Ht Hle].
    destruct (mapM_percent_of_ints (int_total zs) zs Hle) as (ps & -> & _); [lia|].
    by exists ps.
Qed.

(** C5 (as amended).  For every container that is not empty and whose total
    is zero, [normalize] raises ZeroDivisionError (the DivisionUndefinedError
    of the specification) at the first value, provided [100 * value] can be
    converted where Python converts it. *)
Theorem normalize_zero_total fuel (h : gmap positive obj) numbers x xs total :
  contents fs h numbers = Some (x :: xs) →
  sum_of (x :: xs) = Ok total →
  is_zero total = true →
  hundredfold_converts x total →
  (length (x :: xs) < fuel)%nat →
  ∃ msg h', normalize fs fuel numbers h = Some (Raise (ZeroDivisionError msg), h').
Proof.
  intros Hc Hs Hz Hconv Hfuel.
  destruct (normalize_container fs fuel numbers (x :: xs) h Hc Hfuel) as (h' & En & _).
  rewrite En. unfold percentages. rewrite Hs. simpl.
  change (append_percent total [] x)
    with (percent_of total x ≫= λ percent, Ok ([] ++ [percent])).
  assert (∃ msg, percent_of total x = Raise (ZeroDivisionError msg)) as [msg ->];
    [|by exists msg, h'].
  unfold percent_of. destruct x as [z|g], total as [t|f]; simpl in *.
  - apply Z.eqb_eq in Hz as ->. unfold int_truediv. simpl. eauto.
  - destruct Hconv as [f' ->]. simpl. unfold float_truediv. rewrite Hz. simpl. eauto.
  - apply Z.eqb_eq in Hz as ->.
    change (float_of_int 100) with (Ok 100%float). simpl.
    change (float_of_int 0) with (Ok 0%float). simpl. eauto.
  - change (float_of_int 100) with (Ok 100%float). simpl.
    unfold float_truediv. rewrite Hz. simpl. eauto.
Qed.

(** C9 (as amended).  [normalize_copy] on a single-pass iterator over [xs]
    drains it into a new list and gives what [normalize] gives on a
    container holding [xs].  Given a container it gives the same again and
    does not modify the container, but it copies its items into a new list
    all the same. *)
Theorem normalize_copy_buffers fuel (h1 h2 : gmap positive obj) it c xs :
  remaining h1 it = Some xs →
  contents fs h2 c = Some xs →
  (length xs < fuel)%nat →
  ∃ h1' h2' h2'' buffer copy,
    normalize_copy fs fuel it h1 = Some (percentages xs, h1')
    ∧ h1' !! buffer = Some (OList xs) ∧ remaining h1' it = Some []
    ∧ normalize fs fuel c h2 = Some (percentages xs, h2')
    ∧ normalize_copy fs fuel c h2 = Some (percentages xs, h2'')
    ∧ h2'' !! c = h2 !! c
    ∧ h2 !! copy = None ∧ h2'' !! copy = Some (OList xs).
Proof.
  intros Hr Hc Hfuel.
  destruct (normalize_copy_iterator fs fuel it xs h1 Hr Hfuel)
    as (buffer & h1' & E1 & Hbuf & Hr1).
  destruct (normalize_container fs fuel c xs h2 Hc Hfuel) as (h2' & E2 & _).
  destruct (normalize_copy_container fs fuel c xs h2 Hc Hfuel)
    as (copy & h2'' & E3 & Hp & Hnew & Hcopy).
  exists h1', h2', h2'', buffer, copy. split_and!; try done.
  apply Hp. apply contents_is_container in Hc. unfold is_container in Hc.
  by destruct (h2 !! c).
Qed.

(** C10.  [normalize] on a single-pass iterator whose values can be summed
    does not fail: it returns the empty list, the first pass having
    exhausted the iterator, which is left with nothing to yield; no other
    object is changed.  The empty list is not the list of percentages when
    the iterator had values. *)
Theorem normalize_iterator_empty fuel (h : gmap positive obj) it xs total :
  remaining h it = Some xs →
  sum_of xs = Ok total →
  (length xs < fuel)%nat →
  ∃ h', normalize fs fuel it h = Some (Ok [], h')
        ∧ remaining h' it = Some []
        ∧ (∀ x, x ≠ it → h' !! x = h !! x)
        ∧ (xs ≠ [] → percentages xs ≠ Ok []).
Proof.
  intros Hr Hs Hfuel. unfold normalize.
  destruct (for_in_iterator fs py_add fuel it (VInt 0) xs h Hr Hfuel)
    as (h1 & Es & Hfr1 & Hex).
  fold (sum_ fs fuel it) in Es. fold (sum_of xs) in Es, Hex. rewrite Hs in Es.
  rewrite (bind_ok _ _ _ _ _ Es).
  destruct (for_in_iterator fs (append_percent total) fuel it [] [] h1)
    as (h2 & Ef & Hfr2 & Hex2); [by eapply Hex|simpl; lia|].
  exists h2. split_and!.
  - done.
  - by eapply Hex2.
  - intros x Hx. by rewrite Hfr2, Hfr1.
  - intros Hne E. apply percentages_length in E. by destruct xs.
Qed.

(** C4.  [normalize_defensive] given an iterator, for which [iter] hands out
    the iterator itself, raises TypeError('Must supply a container') (the
    notebook's NotReusableError) and returns nothing. *)
Theorem normalize_defensive_rejects_iterator fuel (h : gmap positive obj) it :
  is_iterator h it →
  iter fs it h = Some (Ok it, h)
  ∧ normalize_defensive fs fuel it h
    = Some (Raise (TypeError "Must supply a container"), h).
Proof.
  intros Hit. pose proof (iter_iterator fs h it Hit) as Ei. split; [done|].
  unfold normalize_defensive, iter_is_self.
  unfold mbind at 1, M_bind. unfold mbind at 1, M_bind. rewrite Ei. simpl.
  by rewrite bool_decide_eq_true_2.
Qed.

(** C6.  [classify] answers Container for a container and SinglePassIterator
    for the iterator that [iter] made from that container; its answer is
    SinglePassIterator exactly when [iter] hands out the object itself. *)
Theorem classify_container_and_its_iterator (h : gmap positive obj) c :
  is_container h c →
  (∃ h1, classify fs c h = Some (Ok Container, h1))
  ∧ (∃ it h1, iter fs c h = Some (Ok it, h1)
              ∧ classify fs it h1 = Some (Ok SinglePassIterator, h1))
  ∧ (∀ x y (h0 h0' : gmap positive obj), iter fs x h0 = Some (Ok y, h0') →
       classify fs x h0
       = Some (Ok (if bool_decide (y = x) then SinglePassIterator else Container), h0')).
Proof.
  intros Hc.
  assert (∀ x y (h0 h0' : gmap positive obj), iter fs x h0 = Some (Ok y, h0') →
       classify fs x h0
       = Some (Ok (if bool_decide (y = x) then SinglePassIterator else Container), h0'))
    as Hrule.
  { intros x y h0 h0' Ei. unfold classify, iter_is_self.
    unfold mbind at 1, M_bind. unfold mbind at 1, M_bind. by rewrite Ei. }
  assert (∃ o, iter fs c h = Some (Ok (fresh (dom h)), <[fresh (dom h):=o]> h)
               ∧ is_iterator (<[fresh (dom h):=o]> h) (fresh (dom h))) as (o & Ei & Hit).
  { unfold is_container in Hc. unfold iter, is_iterator.
    destruct (h !! c) as [[items| |data_path|]|]; try done;
      eexists; (split; [apply alloc_spec|by rewrite lookup_insert_eq]). }
  assert (fresh (dom h) ≠ c) as Hne.
  { intros Heq. pose proof (alloc_fresh h) as Hf. rewrite Heq in Hf.
    unfold is_container in Hc. by rewrite Hf in Hc. }
  split_and!; [| |done].
  - eexists. rewrite (Hrule _ _ _ _ Ei). by rewrite bool_decide_eq_false_2.
  - eexists _, _. split; [done|].
    rewrite (Hrule _ _ _ _ (iter_iterator fs _ _ Hit)).
    by rewrite bool_decide_eq_true_2.
Qed.

End normalize_claims.

(** * The claims about cursors *)

Lemma nexts_other k : ∀ it x (h : gmap positive obj),
  x ≠ it → snd (nexts k it h) !! x = h !! x.
Proof.
  induction k as [|k IH]; intros it x h Hne; simpl; [done|].
  destruct (next it h) as [[r h']|] eqn:En; [|done].
  specialize (IH it x h' Hne). destruct (nexts k it h') as [rs h'']. simpl in *.
  rewrite IH. by eapply next_other.
Qed.

(** [next] gives the same on two heaps that agree on the iterator and on the
    list it reads, and the heaps still agree on them afterwards. *)
Lemma next_view it (h1 h2 h1' h2' : gmap positive obj) r1 r2 :
  view h1 it = view h2 it →
  next it h1 = Some (r1, h1') → next it h2 = Some (r2, h2') →
  r1 = r2 ∧ view h1' it = view h2' it.
Proof.
  unfold view, next. intros [= Eit El].
  rewrite <- Eit. rewrite <- Eit in El.
  destruct (h1 !! it) as [[items|[l|] i|data_path|[[r|v k|e]|]]|] eqn:E1;
    try (intros; simplify_eq; by rewrite <- ?Eit, ?E1, ?lookup_insert_eq).
  - rewrite <- El.
    assert (it ≠ l → (<[it:=OListIter (Some l) (S i)]> h1 : gmap positive obj) !! l
                     = (<[it:=OListIter (Some l) (S i)]> h2 : gmap positive obj) !! l).
    { intros. by rewrite !lookup_insert_ne. }
    destruct (h1 !! l) as [[items| | |]|] eqn:E1l;
      try (intros; simplify_eq; by rewrite <- ?Eit, ?E1, <- ?El, ?E1l).
    assert (it ≠ l) by (intros ->; congruence).
    destruct (items !! i);
      intros; simplify_eq; rewrite !lookup_insert_eq; [|done].
    by rewrite !lookup_insert_ne, <- El, E1l.
  - destruct e; intros; simplify_eq; by rewrite !lookup_insert_eq.
Qed.

Lemma nexts_view k : ∀ it (h1 h2 : gmap positive obj),
  view h1 it = view h2 it → fst (nexts k it h1) = fst (nexts k it h2).
Proof.
  induction k as [|k IH]; intros it h1 h2 Hv; simpl; [done|].
  destruct (next_total it h1) as (r1 & h1' & E1).
  destruct (next_total it h2) as (r2 & h2' & E2). rewrite E1, E2.
  destruct (next_view it h1 h2 h1' h2' r1 r2 Hv E1 E2) as [-> Hv'].
  specialize (IH it h1' h2' Hv').
  destruct (nexts k it h1'), (nexts k it h2'). simpl in *. by rewrite IH.
Qed.

Lemma nexts_remaining k : ∀ it xs (h : gmap positive obj),
  remaining h it = Some xs →
  fst (nexts k it h)
  = (Ok <$> take k xs) ++ replicate (k - length xs) (Raise StopIteration).
Proof.
  induction k as [|k IH]; intros it xs h Hr; simpl; [done|].
  destruct xs as [|v vs].
  - destruct (next_remaining_nil _ _ Hr) as (h' & En & Hr'). rewrite En.
    specialize (IH it [] h' Hr'). destruct (nexts k it h') as [rs h'']. simpl in *.
    rewrite IH. rewrite take_nil. simpl. by rewrite Nat.sub_0_r.
  - destruct (next_remaining_cons _ _ _ _ Hr) as (h' & En & Hr'). rewrite En.
    specialize (IH it vs h' Hr'). destruct (nexts k it h') as [rs h'']. simpl in *.
    by rewrite IH.
Qed.

(** C3.  Once [next] has raised StopIteration on a cursor, every further
    [next] on it raises StopIteration again, and changes nothing. *)
Theorem exhausted_cursor_stays_exhausted it (h h1 : gmap positive obj) :
  next it h = Some (Raise StopIteration, h1) →
  ∀ k, nexts k it h1 = (replicate k (Raise StopIteration), h1).
Proof.
  intros En.
  assert (next it h1 = Some (Raise StopIteration, h1)) as Hfix.
  { revert En. unfold next.
    destruct (h !! it) as [[items|[l|] i|data_path|[[r|v k|e]|]]|] eqn:Eit;
      try (intros; simplify_eq; by rewrite ?Eit, ?lookup_insert_eq).
    - destruct (h !! l) as [[items| | |]|]; try (intros; simplify_eq; fail).
      destruct (items !! i); intros; simplify_eq. by rewrite lookup_insert_eq.
    - destruct e; intros; simplify_eq. }
  induction k as [|k IH]; simpl; [done|]. by rewrite Hfix, IH.
Qed.

(** C7.  Two calls of [iter] on a container give two cursors that do not
    interfere: however far one has been read, the other is where it was and
    yields what it would have yielded. *)
Theorem container_cursors_independent (fs : gmap string (list string))
    (h : gmap positive obj) c :
  is_container h c →
  ∃ a h1 b h2,
    iter fs c h = Some (Ok a, h1) ∧ iter fs c h1 = Some (Ok b, h2) ∧ a ≠ b
    ∧ ∀ j k,
        snd (nexts j a h2) !! b = h2 !! b
        ∧ fst (nexts k b (snd (nexts j a h2))) = fst (nexts k b h2)
        ∧ snd (nexts j b h2) !! a = h2 !! a
        ∧ fst (nexts k a (snd (nexts j b h2))) = fst (nexts k a h2).
Proof.
  intros Hc. unfold is_container in Hc.
  set (a := fresh (dom h)).
  assert (h !! a = None) as Ha by apply alloc_fresh.
  assert (a ≠ c) as Hac by (intros Heq; rewrite Heq in Ha; by rewrite Ha in Hc).
  assert (∃ oa, iter fs c h = Some (Ok a, <[a:=oa]> h)
                ∧ (∀ l i, oa = OListIter (Some l) i → l = c)) as (oa & Ea & Hoa).
  { unfold iter. destruct (h !! c) as [[items| |data_path|]|]; try done;
      eexists; (split; [apply alloc_spec|]); intros l i; by intros [=]. }
  set (h1 := <[a:=oa]> h) in *.
  set (b := fresh (dom h1)).
  assert (h1 !! b = None) as Hb by apply alloc_fresh.
  assert (a ≠ b) as Hab.
  { intros Heq. rewrite <- Heq in Hb. unfold h1 in Hb. by rewrite lookup_insert_eq in Hb. }
  assert (h1 !! c = h !! c) as Hc1 by (unfold h1; by rewrite lookup_insert_ne).
  assert (b ≠ c) as Hbc by (intros Heq; rewrite Heq, Hc1 in Hb; by rewrite Hb in Hc).
  assert (∃ ob, iter fs c h1 = Some (Ok b, <[b:=ob]> h1)
                ∧ (∀ l i, ob = OListIter (Some l) i → l = c)) as (ob & Eb & Hob).
  { unfold iter. rewrite Hc1. destruct (h !! c) as [[items| |data_path|]|]; try done;
      eexists; (split; [apply alloc_spec|]); intros l i; by intros [=]. }
  set (h2 := <[b:=ob]> h1) in *.
  assert (h2 !! a = Some oa) as H2a.
  { unfold h2, h1. by rewrite lookup_insert_ne, lookup_insert_eq. }
  assert (h2 !! b = Some ob) as H2b by (unfold h2; by rewrite lookup_insert_eq).
  exists a, h1, b, h2. split_and!; [done..|]. intros j k.
  assert (∀ x y oy (h3 : gmap positive obj), x ≠ y → x ≠ c → h2 !! y = Some oy →
            (∀ l i, oy = OListIter (Some l) i → l = c) →
            view (snd (nexts j x h2)) y = view h2 y) as Hview.
  { intros x y oy _ Hxy Hxc Hy Hoy. unfold view.
    rewrite (nexts_other j x y h2) by done. rewrite Hy. f_equal.
    destruct oy as [|[l|] i| |]; try done.
    rewrite (Hoy l i eq_refl). by apply nexts_other. }
  split_and!.
  - by apply nexts_other.
  - apply nexts_view. by eapply (Hview a b ob h2).
  - by apply nexts_other.
  - apply nexts_view. by eapply (Hview b a oa h2).
Qed.

(** * The claims about generators *)

Lemma returns_seq (g k : Gen unit) : returns (g;; k) = returns g && returns k.
Proof. induction g as [[]|v g IH|e]; simpl; done. Qed.

Lemma outputs_seq (g k : Gen unit) :
  returns g = true → outputs (g;; k) = outputs g ++ outputs k.
Proof.
  induction g as [[]|v g IH|e]; simpl; intros Hg; [done| |done].
  f_equal. by apply IH.
Qed.

Lemma returns_yield_from {R : Type} (g : Gen R) : returns (yield_from g) = returns g.
Proof. induction g; simpl; done. Qed.

Lemma outputs_yield_from {R : Type} (g : Gen R) : outputs (yield_from g) = outputs g.
Proof. induction g as [r|v g IH|e]; simpl; [done| |done]. by rewrite IH. Qed.

(** Re-yielding each item of a child is delegating to it. *)
Lemma for_gen_yield (g : Gen unit) : for_gen g (λ v, yield v) = yield_from g.
Proof.
  induction g as [[]|v g IH|e]; simpl; [done| |done]. by rewrite <- IH.
Qed.

Lemma first_nexts_returns k (body : Gen unit) (h : gmap positive obj) :
  returns body = true →
  first_nexts k body h
  = (Ok <$> take k (outputs body))
    ++ replicate (k - length (outputs body)) (Raise StopIteration).
Proof.
  intros Hb. unfold first_nexts, call_gen. rewrite alloc_spec.
  apply nexts_remaining. unfold remaining. by rewrite lookup_insert_eq, Hb.
Qed.

(** C2.  A generator that delegates to three children in turn yields the
    values of the first, then of the second, then of the third, and raises
    StopIteration only after the last value of the third. *)
Theorem chained_producer_concatenates (P1 P2 P3 : Gen unit)
    (h : gmap positive obj) k :
  returns P1 = true → returns P2 = true → returns P3 = true →
  first_nexts k (yield_from P1;; yield_from P2;; yield_from P3) h
  = (Ok <$> take k (outputs P1 ++ outputs P2 ++ outputs P3))
    ++ replicate (k - length (outputs P1 ++ outputs P2 ++ outputs P3))
                 (Raise StopIteration).
Proof.
  intros H1 H2 H3. rewrite first_nexts_returns.
  - rewrite !outputs_seq, !outputs_yield_from; by rewrite ?returns_yield_from.
  - by rewrite !returns_seq, !returns_yield_from, H1, H2, H3.
Qed.

(** C8.  Delegating with [yield from] and re-yielding in a loop are the same
    generator: [animate_composed] and [animate] have the same frame, and so
    have [fast] and [slow]; whoever calls [next] on them sees the same. *)
Theorem yield_from_is_manual_delegation :
  Item33.animate_composed = Item33.animate
  ∧ Item33.fast = Item33.slow
  ∧ ∀ k (h : gmap positive obj),
      first_nexts k Item33.animate_composed h = first_nexts k Item33.animate h
      ∧ first_nexts k Item33.fast h = first_nexts k Item33.slow h.
Proof.
  assert (Item33.animate_composed = Item33.animate) as Ha.
  { unfold Item33.animate_composed, Item33.animate.
    rewrite !for_gen_yield. reflexivity. }
  assert (Item33.fast = Item33.slow) as Hf.
  { unfold Item33.fast, Item33.slow. symmetry. apply for_gen_yield. }
  split; [exact Ha|]. split; [exact Hf|].
  intros k h. rewrite Ha, Hf. split; reflexivity.
Qed.

(** ** Item 30: the generator yields what the list version returns, once *)

Lemma index_words_step (l : list (Z * ascii)) : ∀ acc,
  let body := (λ '(index, letter),
    if Ascii.eqb letter " " then yield (VInt (index + 1)) else pass) in
  returns (for_each l body) = true
  ∧ foldl (λ result '(index, letter),
             if Ascii.eqb letter " " then result ++ [VInt (index + 1)] else result)
          acc l
    = acc ++ outputs (for_each l body).
Proof.
  induction l as [|[index letter] l IH]; intros acc; simpl.
  - by rewrite app_nil_r.
  - destruct (Ascii.eqb letter " "); simpl.
    + destruct (IH (acc ++ [VInt (index + 1)])) as [Hr ->].
      split; [done|]. by rewrite <- app_assoc.
    + apply IH.
Qed.

Lemma index_words_iter_spec (text : string) :
  returns (Item30.index_words_iter text) = true
  ∧ outputs (Item30.index_words_iter text) = Item30.index_words text.
Proof.
  unfold Item30.index_words_iter, Item30.index_words.
  destruct (Item30.truthy text); simpl.
  - destruct (index_words_step (Item30.enumerate text) [VInt 0]) as [Hr ->].
    by split.
  - destruct (index_words_step (Item30.enumerate text) []) as [Hr ->]. by split.
Qed.

(** X10.  [it = index_words_iter(text)]: the first [list(it)] is
    [index_words(text)], the second is empty. *)
Lemma index_words_iter_list_twice (fs : gmap string (list string)) (text : string)
    fuel (h : gmap positive obj) :
  (length (Item30.index_words text) < fuel)%nat →
  ∃ it h1 l1 h2 l2 h3,
    call_gen (Item30.index_words_iter text) h = Some (Ok it, h1)
    ∧ list_ fs fuel it h1 = Some (Ok l1, h2)
    ∧ h2 !! l1 = Some (OList (Item30.index_words text))
    ∧ list_ fs fuel it h2 = Some (Ok l2, h3)
    ∧ h3 !! l2 = Some (OList []).
Proof.
  intros Hfuel. destruct (index_words_iter_spec text) as [Hr Ho].
  eexists _, _. unfold call_gen. rewrite alloc_spec.
  set (it := fresh (dom h)). set (h1 := <[it:=_]> h).
  assert (remaining h1 it = Some (Item30.index_words text)) as Hrem.
  { unfold remaining, h1. by rewrite lookup_insert_eq, Hr, Ho. }
  destruct (list_iterator fs fuel it _ h1 Hrem Hfuel) as (l1 & h2 & E1 & Hl1 & _ & Hrem2).
  destruct (list_iterator fs fuel it [] h2 Hrem2) as (l2 & h3 & E2 & Hl2 & _ & _).
  { simpl. lia. }
  by exists l1, h2, l2, h3.
Qed.

(** * The claims on the data of the notebooks *)

(** [normalize([15, 35, 80])] and [normalize(ReadValues(path))]: the
    percentages the notebook prints, whose [sum] is exactly 100.0. *)
Example normalize_15_35_80 :
  let expected := [VFloat 11.538461538461538; VFloat 26.923076923076923;
                   VFloat 61.53846153846154] in
  fst <$> normalize values_txt 4 1 values_heap = Some (Ok expected)
  ∧ fst <$> normalize values_txt 4 2 values_heap = Some (Ok expected)
  ∧ sum_of expected = Ok (VFloat 100)
  ∧ within_tolerance (VFloat 100) = true.
Proof. vm_compute. done. Qed.

Lemma normalize_percentages_witness :
  (contents values_txt values_heap 1 = Some (VInt <$> [15; 35; 80])
   ∧ sum_of (VInt <$> [15; 35; 80]) = Ok (VInt 130))
  ∧ ∃ r h', normalize values_txt 4 1 values_heap = Some (r, h')
      ∧ (∀ ps, r = Ok ps →
           length ps = length (VInt <$> [15; 35; 80])
           ∧ Forall2 (λ x p, percent_of (VInt 130) x = Ok p) (VInt <$> [15; 35; 80]) ps)
      ∧ (∀ zs, VInt <$> [15; 35; 80] = VInt <$> zs → Forall (λ z, 0 ≤ z) zs →
           int_total zs ≠ 0 → ∃ ps, r = Ok ps).
Proof.
  split; [done|].
  apply (normalize_percentages values_txt 4 values_heap 1 (VInt <$> [15; 35; 80])
           (VInt 130)); [reflexivity|reflexivity|simpl; lia].
Defined.

(** A float close to the largest one: [100 * value] overflows to infinity,
    and the one percentage returned is infinity, not 100.0. *)
Lemma normalize_float_overflow :
  let big := VFloat 0x1p1023 in
  let h : gmap positive obj := {[ 1%positive := OList [big] ]} in
  contents ∅ h 1 = Some [big]
  ∧ is_nonneg big = true
  ∧ sum_of [big] = Ok big ∧ is_zero big = false
  ∧ fst <$> normalize ∅ 2 1 h = Some (Ok [VFloat infinity])
  ∧ percent_of big big = Ok (VFloat infinity)
  ∧ sum_of [VFloat infinity] = Ok (VFloat infinity)
  ∧ within_tolerance (VFloat infinity) = false.
Proof. vm_compute. done. Qed.

(** Ints alone do not save the tolerance: on [long_list] every percentage
    after the first is below half the spacing of floats near 100, so adding
    the returned values left to right, as [sum] does in the notebook's
    Python 3.7, never moves the running total, which ends more than 1e-9
    below 100.0. *)
Example normalize_long_list :
  let h : gmap positive obj := {[ 1%positive := OList long_list ]} in
  let ps := VFloat 99.99999999893333
            :: replicate (Z.to_nat 160000) (VFloat 6.6666666666666664e-15) in
  (∃ h', normalize ∅ (Z.to_nat 160002) 1 h = Some (Ok ps, h'))
  ∧ sum_of ps = Ok (VFloat 99.99999999893333)
  ∧ within_tolerance (VFloat 99.99999999893333) = false.
Proof.
  intros h ps. split; [|split; vm_compute; reflexivity].
  assert (percentages long_list = Ok ps) as Hp.
  { apply (percentages_ok long_list ps (VInt 15000000000000000)).
    - vm_compute. reflexivity.
    - apply mapM_cons_ok; [vm_compute; reflexivity|].
      apply mapM_replicate. vm_compute. reflexivity. }
  destruct (normalize_container ∅ (Z.to_nat 160002) 1 long_list h) as (h' & En & _).
  - unfold contents, h. rewrite lookup_singleton_eq. reflexivity.
  - unfold long_list. rewrite length_cons, length_replicate. lia.
  - exists h'. rewrite En, Hp. reflexivity.
Qed.

Example normalize_0_0_0 :
  fst <$> normalize ∅ 4 1 {[ 1%positive := OList [VInt 0; VInt 0; VInt 0] ]}
  = Some (Raise (ZeroDivisionError "division by zero")).
Proof. vm_compute. done. Qed.

Lemma normalize_zero_total_witness :
  let h : gmap positive obj := {[ 1%positive := OList [VInt 0; VInt 0; VInt 0] ]} in
  (contents ∅ h 1 = Some [VInt 0; VInt 0; VInt 0]
   ∧ sum_of [VInt 0; VInt 0; VInt 0] = Ok (VInt 0)
   ∧ is_zero (VInt 0) = true)
  ∧ ∃ msg h', normalize ∅ 4 1 h = Some (Raise (ZeroDivisionError msg), h').
Proof.
  split; [done|].
  apply (normalize_zero_total ∅ 4 _ 1 (VInt 0) [VInt 0; VInt 0] (VInt 0));
    [reflexivity|reflexivity|reflexivity|exact I|simpl; lia].
Defined.

(** The empty list totals zero and [normalize] returns the empty list; an
    iterator over [[0, 0, 0]] totals zero and [normalize] returns the empty
    list as well. *)
Lemma normalize_empty_returns :
  let empty : gmap positive obj := {[ 1%positive := OList [] ]} in
  let zeros : gmap positive obj :=
    {[ 1%positive := OList [VInt 0; VInt 0; VInt 0];
       2%positive := OListIter (Some 1%positive) 0 ]} in
  (contents ∅ empty 1 = Some []
   ∧ sum_of [] = Ok (VInt 0) ∧ is_zero (VInt 0) = true
   ∧ fst <$> normalize ∅ 1 1 empty = Some (Ok []))
  ∧ (remaining zeros 2 = Some [VInt 0; VInt 0; VInt 0]
     ∧ sum_of [VInt 0; VInt 0; VInt 0] = Ok (VInt 0)
     ∧ fst <$> normalize ∅ 4 2 zeros = Some (Ok [])).
Proof. vm_compute. done. Qed.

Lemma normalize_copy_buffers_witness :
  (remaining iterator_heap 3 = Some [VInt 15; VInt 35; VInt 80]
   ∧ contents values_txt values_heap 1 = Some [VInt 15; VInt 35; VInt 80])
  ∧ ∃ h1' h2' h2'' buffer copy,
      normalize_copy values_txt 4 3 iterator_heap
      = Some (percentages [VInt 15; VInt 35; VInt 80], h1')
      ∧ h1' !! buffer = Some (OList [VInt 15; VInt 35; VInt 80])
      ∧ remaining h1' 3 = Some []
      ∧ normalize values_txt 4 1 values_heap
        = Some (percentages [VInt 15; VInt 35; VInt 80], h2')
      ∧ normalize_copy values_txt 4 1 values_heap
        = Some (percentages [VInt 15; VInt 35; VInt 80], h2'')
      ∧ h2'' !! 1%positive = values_heap !! 1%positive
      ∧ values_heap !! copy = None
      ∧ h2'' !! copy = Some (OList [VInt 15; VInt 35; VInt 80]).
Proof.
  split; [done|].
  apply (normalize_copy_buffers values_txt 4 iterator_heap values_heap 3 1);
    [reflexivity|reflexivity|simpl; lia].
Defined.

(** Given the list [[15, 35, 80]] itself, [normalize_copy] buffers it again:
    afterwards a list with the same items stands at an address that held
    nothing before. *)
Lemma normalize_copy_rebuffers_container :
  contents values_txt values_heap 1 = Some [VInt 15; VInt 35; VInt 80]
  ∧ values_heap !! 4%positive = None
  ∧ ∃ r h', normalize_copy values_txt 4 1 values_heap = Some (r, h')
            ∧ h' !! 4%positive = Some (OList [VInt 15; VInt 35; VInt 80]).
Proof.
  split; [done|]. split; [done|].
  destruct (normalize_copy values_txt 4 1 values_heap) as [[r h']|] eqn:E;
    [|vm_compute in E; discriminate].
  exists r, h'. split; [done|]. vm_compute in E. by injection E as <- <-.
Qed.

(** [normalize(read_values(path))] and [normalize(iter(values))] return the
    empty list. *)
Example normalize_read_values :
  fst <$> (it ← call_gen (read_values values_txt path); normalize values_txt 4 it)
            values_heap = Some (Ok [])
  ∧ fst <$> normalize values_txt 4 3 iterator_heap = Some (Ok []).
Proof. vm_compute. done. Qed.

Lemma normalize_iterator_empty_witness :
  (remaining iterator_heap 3 = Some [VInt 15; VInt 35; VInt 80]
   ∧ sum_of [VInt 15; VInt 35; VInt 80] = Ok (VInt 130))
  ∧ ∃ h', normalize values_txt 4 3 iterator_heap = Some (Ok [], h')
          ∧ remaining h' 3 = Some []
          ∧ (∀ x, x ≠ 3%positive → h' !! x = iterator_heap !! x)
          ∧ ([VInt 15; VInt 35; VInt 80] ≠ [] →
             percentages [VInt 15; VInt 35; VInt 80] ≠ Ok []).
Proof.
  split; [done|].
  apply (normalize_iterator_empty values_txt 4 iterator_heap 3 _ (VInt 130));
    [reflexivity|reflexivity|simpl; lia].
Defined.

Lemma normalize_defensive_rejects_iterator_witness :
  is_iterator iterator_heap 3
  ∧ iter values_txt 3 iterator_heap = Some (Ok 3%positive, iterator_heap)
  ∧ normalize_defensive values_txt 4 3 iterator_heap
    = Some (Raise (TypeError "Must supply a container"), iterator_heap).
Proof.
  split; [exact I|].
  apply (normalize_defensive_rejects_iterator values_txt 4 iterator_heap 3). exact I.
Defined.

(** [normalize_defensive] accepts the list and the [ReadValues] instance. *)
Example normalize_defensive_accepts_containers :
  let expected := [VFloat 11.538461538461538; VFloat 26.923076923076923;
                   VFloat 61.53846153846154] in
  fst <$> normalize_defensive values_txt 4 1 values_heap = Some (Ok expected)
  ∧ fst <$> normalize_defensive values_txt 4 2 values_heap = Some (Ok expected).
Proof. vm_compute. done. Qed.

Lemma classify_container_and_its_iterator_witness :
  is_container values_heap 1
  ∧ (∃ h1, classify values_txt 1 values_heap = Some (Ok Container, h1))
  ∧ (∃ it h1, iter values_txt 1 values_heap = Some (Ok it, h1)
              ∧ classify values_txt it h1 = Some (Ok SinglePassIterator, h1))
  ∧ (∀ x y (h0 h0' : gmap positive obj), iter values_txt x h0 = Some (Ok y, h0') →
       classify values_txt x h0
       = Some (Ok (if bool_decide (y = x) then SinglePassIterator else Container), h0')).
Proof.
  split; [exact I|].
  apply (classify_container_and_its_iterator values_txt values_heap 1). exact I.
Defined.

(** [it = index_words_iter("Four score")] yields 0 and 5; the third [next]
    raises StopIteration, and so does every later one. *)
Lemma exhausted_cursor_stays_exhausted_witness :
  let h0 : gmap positive obj :=
    {[ 1%positive := OGen (Some (Item30.index_words_iter "Four score")) ]} in
  let h1 : gmap positive obj := {[ 1%positive := OGen None ]} in
  fst (nexts 2 1 h0) = [Ok (VInt 0); Ok (VInt 5)]
  ∧ next 1 (snd (nexts 2 1 h0)) = Some (Raise StopIteration, h1)
  ∧ ∀ k, nexts k 1 h1 = (replicate k (Raise StopIteration), h1).
Proof.
  split; [reflexivity|]. split; [reflexivity|].
  apply (exhausted_cursor_stays_exhausted 1
           (snd (nexts 2 1
              {[ 1%positive := OGen (Some (Item30.index_words_iter "Four score")) ]}))).
  reflexivity.
Defined.

(** Cursor A reads 15; a fresh cursor B from the same container still reads
    15 first: for the list, and for the [ReadValues] instance. *)
Example two_cursors_15 :
  fst <$> (a ← iter values_txt 1; x ← next a; b ← iter values_txt 1;
           y ← next b; mret (x, y)) values_heap
  = Some (Ok (VInt 15, VInt 15))
  ∧ fst <$> (a ← iter values_txt 2; x ← next a; b ← iter values_txt 2;
             y ← next b; mret (x, y)) values_heap
    = Some (Ok (VInt 15, VInt 15)).
Proof. vm_compute. done. Qed.

Lemma container_cursors_independent_witness :
  is_container values_heap 1
  ∧ ∃ a h1 b h2,
      iter values_txt 1 values_heap = Some (Ok a, h1)
      ∧ iter values_txt 1 h1 = Some (Ok b, h2) ∧ a ≠ b
      ∧ ∀ j k,
          snd (nexts j a h2) !! b = h2 !! b
          ∧ fst (nexts k b (snd (nexts j a h2))) = fst (nexts k b h2)
          ∧ snd (nexts j b h2) !! a = h2 !! a
          ∧ fst (nexts k a (snd (nexts j b h2))) = fst (nexts k a h2).
Proof.
  split; [exact I|].
  apply (container_cursors_independent values_txt values_heap 1). exact I.
Defined.

(** [animate_composed]: 5.0 four times, 0 three times, 3.0 twice, then
    StopIteration; and [animate] the same. *)
Example animate_composed_values :
  let deltas := [Ok (VFloat 5); Ok (VFloat 5); Ok (VFloat 5); Ok (VFloat 5);
                 Ok (VInt 0); Ok (VInt 0); Ok (VInt 0);
                 Ok (VFloat 3); Ok (VFloat 3); Raise StopIteration] in
  first_nexts 10 Item33.animate_composed ∅ = deltas
  ∧ first_nexts 10 Item33.animate ∅ = deltas.
Proof. vm_compute. done. Qed.

Lemma chained_producer_concatenates_witness :
  let P1 := Item33.move 4 (VFloat 5) in
  let P2 := Item33.pause 3 in
  let P3 := Item33.move 2 (VFloat 3) in
  (returns P1 = true ∧ returns P2 = true ∧ returns P3 = true)
  ∧ first_nexts 10 Item33.animate_composed ∅
    = (Ok <$> take 10 (outputs P1 ++ outputs P2 ++ outputs P3))
      ++ replicate (10 - length (outputs P1 ++ outputs P2 ++ outputs P3))
                   (Raise StopIteration).
Proof.
  split; [done|].
  apply (chained_producer_concatenates
           (Item33.move 4 (VFloat 5)) (Item33.pause 3) (Item33.move 2 (VFloat 3)) ∅ 10);
    reflexivity.
Defined.

(** * Further properties of the notebooks' code *)

(** ** Item 31: the other ways to normalise *)

Section more_normalisation.
Context (fs : gmap string (list string)).

Lemma call_gen_fresh (body : Gen unit) (h : gmap positive obj) :
  returns body = true →
  ∃ it h', call_gen body h = Some (Ok it, h') ∧ h !! it = None
           ∧ preserved h h' ∧ remaining h' it = Some (outputs body).
Proof.
  intros Hb. eexists _, _. split; [apply alloc_spec|].
  pose proof (alloc_fresh h) as Hf.
  split_and!; [done|by apply preserved_insert_fresh|].
  unfold remaining. by rewrite lookup_insert_eq, Hb.
Qed.

Lemma preserved_but (h h1 h2 : gmap positive obj) it :
  h !! it = None → preserved h h1 → (∀ x, x ≠ it → h2 !! x = h1 !! x) →
  preserved h h2.
Proof.
  intros Hit Hp Hfr x Hx. rewrite Hfr, Hp; [done..|].
  intros ->. destruct Hx; congruence.
Qed.

(** X1.  [normalize_func] with a function that makes a new generator at each
    call, as [lambda: read_values(path)] does, gives what [normalize] gives
    on a container of the generator's values, and leaves every object that
    existed before as it was. *)
Theorem normalize_func_fresh fuel (body : Gen unit) (h : gmap positive obj) :
  returns body = true →
  (length (outputs body) < fuel)%nat →
  ∃ h', normalize_func fs fuel (call_gen body) h
        = Some (percentages (outputs body), h')
        ∧ preserved h h'.
Proof.
  intros Hb Hfuel. unfold normalize_func, percentages.
  destruct (call_gen_fresh body h Hb) as (it1 & h1 & E1 & Hn1 & Hp1 & Hr1).
  rewrite (bind_ok _ _ _ _ _ E1).
  destruct (for_in_iterator fs py_add fuel it1 (VInt 0) _ h1 Hr1 Hfuel)
    as (h2 & Es & Hfr2 & _).
  fold (sum_ fs fuel it1) in Es. fold (sum_of (outputs body)) in Es.
  pose proof (preserved_but h h1 h2 it1 Hn1 Hp1 Hfr2) as Hp2.
  destruct (sum_of (outputs body)) as [total|e]; simpl.
  - rewrite (bind_ok _ _ _ _ _ Es).
    destruct (call_gen_fresh body h2 Hb) as (it2 & h3 & E3 & Hn3 & Hp3 & Hr3).
    rewrite (bind_ok _ _ _ _ _ E3).
    destruct (for_in_iterator fs (append_percent total) fuel it2 [] _ h3 Hr3 Hfuel)
      as (h4 & Ef & Hfr4 & _).
    exists h4. split; [done|].
    eapply preserved_trans; [exact Hp2|]. by eapply preserved_but.
  - rewrite (bind_raise _ _ _ _ _ Es). by exists h2.
Qed.

(** X2.  [normalize_func] with a function that hands out the same iterator at
    each call returns the empty list: the total takes every value, and the
    second call delivers the iterator exhausted. *)
Theorem normalize_func_same_iterator fuel (h : gmap positive obj) it xs total :
  remaining h it = Some xs →
  sum_of xs = Ok total →
  (length xs < fuel)%nat →
  ∃ h', normalize_func fs fuel (mret it) h = Some (Ok [], h')
        ∧ remaining h' it = Some [].
Proof.
  intros Hr Hs Hfuel. unfold normalize_func.
  unfold mbind at 1, M_bind. unfold mret at 1, M_ret.
  destruct (for_in_iterator fs py_add fuel it (VInt 0) xs h Hr Hfuel)
    as (h1 & Es & _ & Hex).
  fold (sum_ fs fuel it) in Es. fold (sum_of xs) in Es, Hex. rewrite Hs in Es.
  rewrite (bind_ok _ _ _ _ _ Es).
  unfold mbind at 1, M_bind. unfold mret at 1, M_ret.
  destruct (for_in_iterator fs (append_percent total) fuel it [] [] h1)
    as (h2 & Ef & _ & Hex2); [by eapply Hex|simpl; lia|].
  exists h2. split; [done|]. by eapply Hex2.
Qed.

(** X3.  [normalize_defensive] given a container gives what [normalize] gives
    on it, and leaves every object that existed before as it was. *)
Theorem normalize_defensive_accepts_container fuel (h : gmap positive obj) c xs :
  contents fs h c = Some xs →
  (length xs < fuel)%nat →
  ∃ h', normalize_defensive fs fuel c h = Some (percentages xs, h')
        ∧ preserved h h'.
Proof.
  intros Hc Hfuel. unfold normalize_defensive, iter_is_self.
  destruct (iter_container fs h c xs Hc) as (it & h1 & Ei & _ & Hne & Hp1 & _).
  unfold mbind at 1, M_bind. unfold mbind at 1, M_bind. rewrite Ei. simpl.
  rewrite bool_decide_eq_false_2 by done.
  destruct (normalize_container fs fuel c xs h1) as (h2 & En & Hp2);
    [by eapply preserved_contents|done|].
  exists h2. split; [exact En|]. by eapply preserved_trans.
Qed.

(** X4.  [normalize] can be called again on the same container: it leaves
    every object that existed before as it was, and a second call returns
    what the first returned. *)
Theorem normalize_container_again fuel (h : gmap positive obj) c xs :
  contents fs h c = Some xs →
  (length xs < fuel)%nat →
  ∃ r h1 h2, normalize fs fuel c h = Some (r, h1)
             ∧ normalize fs fuel c h1 = Some (r, h2)
             ∧ preserved h h2.
Proof.
  intros Hc Hfuel.
  destruct (normalize_container fs fuel c xs h Hc Hfuel) as (h1 & E1 & Hp1).
  destruct (normalize_container fs fuel c xs h1) as (h2 & E2 & Hp2);
    [by eapply preserved_contents|done|].
  exists (percentages xs), h1, h2. split_and!; [done..|]. by eapply preserved_trans.
Qed.

End more_normalisation.

(** ** Item 31: what [read_values] and [ReadValues] deliver *)

Lemma nexts_throws k (g : Gen unit) : ∀ it (h : gmap positive obj) e,
  h !! it = Some (OGen (Some g)) → throws g = Some e → e ≠ StopIteration →
  fst (nexts (length (outputs g) + S k) it h)
  = (Ok <$> outputs g) ++ Raise e :: replicate k (Raise StopIteration).
Proof.
  induction g as [r|v g IH|e']; intros it h e Hit Ht He; simpl in *; [done| |].
  - unfold next. rewrite Hit.
    specialize (IH it (<[it:=OGen (Some g)]> h) e).
    destruct (nexts (length (outputs g) + S k) it (<[it:=OGen (Some g)]> h))
      as [rs h'] eqn:En. simpl in *. f_equal. apply IH; [|done..].
    by rewrite lookup_insert_eq.
  - injection Ht as ->. unfold next. rewrite Hit.
    assert (remaining (<[it:=OGen None]> h) it = Some []) as Hr.
    { unfold remaining. by rewrite lookup_insert_eq. }
    pose proof (nexts_remaining k it [] _ Hr) as Hk.
    destruct e; try done;
      destruct (nexts k it (<[it:=OGen None]> h)) as [rs h']; simpl in *;
      rewrite Hk, take_nil, Nat.sub_0_r; done.
Qed.

Section reading.
Context (fs : gmap string (list string)).

Lemma read_lines_parsed (lines : list string) : ∀ zs,
  mapM int_ lines = Ok zs →
  returns (for_each lines (λ line, n ← eval (int_ line); yield (VInt n))) = true
  ∧ outputs (for_each lines (λ line, n ← eval (int_ line); yield (VInt n)))
    = VInt <$> zs.
Proof.
  induction lines as [|line lines IH]; intros zs; simpl.
  - by intros [= <-].
  - destruct (int_ line) as [z|e]; simpl; [|done].
    destruct (mapM int_ lines) as [zs'|e]; simpl; [|done].
    intros [= <-]. destruct (IH zs' eq_refl) as [Hr Ho]. simpl.
    split; [done|]. by rewrite Ho.
Qed.

Lemma read_lines_bad (good : list string) bad rest e : ∀ zs,
  mapM int_ good = Ok zs → int_ bad = Raise e →
  throws (for_each (good ++ bad :: rest)
            (λ line, n ← eval (int_ line); yield (VInt n))) = Some e
  ∧ outputs (for_each (good ++ bad :: rest)
               (λ line, n ← eval (int_ line); yield (VInt n)))
    = VInt <$> zs.
Proof.
  intros zs Hg Hb. revert zs Hg.
  induction good as [|line good IH]; intros zs; simpl.
  - intros [= <-]. by rewrite Hb.
  - destruct (int_ line) as [z|e']; simpl; [|done].
    destruct (mapM int_ good) as [zs'|e']; simpl; [|done].
    intros [= <-]. destruct (IH zs' eq_refl) as [Ht Ho]. simpl.
    split; [done|]. by rewrite Ho.
Qed.

Lemma int_raises_ValueError (line : string) e :
  int_ line = Raise e → e = ValueError "invalid literal for int() with base 10".
Proof.
  unfold int_.
  destruct (match strip (list_ascii_of_string line) with
            | [] => _ | _ :: _ => _ end); [done|]. by intros [= <-].
Qed.

(** X5.  When every line of the file is an int literal, [read_values(path)]
    yields those ints in the order of the lines and then ends, and a
    [ReadValues(path)] container holds the same values. *)
Theorem read_values_yields_ints path (lines : list string) zs
    (h : gmap positive obj) k :
  fs !! path = Some lines →
  mapM int_ lines = Ok zs →
  first_nexts k (read_values fs path) h
  = (Ok <$> take k (VInt <$> zs))
    ++ replicate (k - length zs) (Raise StopIteration)
  ∧ ∀ c, h !! c = Some (OReadValues path) →
         contents fs h c = Some (VInt <$> zs).
Proof.
  intros Hf Hm. destruct (read_lines_parsed lines zs Hm) as [Hr Ho].
  assert (returns (read_values fs path) = true ∧
          outputs (read_values fs path) = VInt <$> zs) as [Hr' Ho'].
  { unfold read_values, for_line_of. by rewrite Hf. }
  split.
  - rewrite (first_nexts_returns k _ h Hr'), Ho'. by rewrite length_fmap.
  - intros c Hc. unfold contents. rewrite Hc.
    change (ReadValues_iter fs path) with (read_values fs path).
    by rewrite Hr', Ho'.
Qed.

(** X6.  Calling [read_values] on a path that names no file raises nothing:
    the file is opened at the first [next], which raises FileNotFoundError;
    after that the generator is finished. *)
Theorem read_values_missing_file path (h : gmap positive obj) k :
  fs !! path = None →
  (∃ it h', call_gen (read_values fs path) h = Some (Ok it, h'))
  ∧ first_nexts (S k) (read_values fs path) h
    = Raise (FileNotFoundError path) :: replicate k (Raise StopIteration).
Proof.
  intros Hf. split; [by eexists _, _|].
  unfold first_nexts, call_gen. rewrite alloc_spec.
  assert (read_values fs path = Throw (FileNotFoundError path)) as ->.
  { unfold read_values, for_line_of. by rewrite Hf. }
  apply (nexts_throws k (Throw (FileNotFoundError path)) _ _ (FileNotFoundError path));
    [by rewrite lookup_insert_eq|done|done].
Qed.

(** X7.  When a line of ASCII characters in the file is not an int literal,
    [read_values] yields the ints of the lines before it, raises ValueError
    at that line, and is finished: the lines after it are never delivered. *)
Theorem read_values_bad_line path (good : list string) bad rest zs e
    (h : gmap positive obj) k :
  fs !! path = Some (good ++ bad :: rest) →
  mapM int_ good = Ok zs →
  isascii bad = true →
  int_ bad = Raise e →
  first_nexts (length zs + S k) (read_values fs path) h
  = (Ok <$> (VInt <$> zs))
    ++ Raise (ValueError "invalid literal for int() with base 10")
       :: replicate k (Raise StopIteration).
Proof.
  intros Hf Hg _ Hb. destruct (read_lines_bad good bad rest e zs Hg Hb) as [Ht Ho].
  apply int_raises_ValueError in Hb as ->.
  assert (throws (read_values fs path)
          = Some (ValueError "invalid literal for int() with base 10")
          ∧ outputs (read_values fs path) = VInt <$> zs) as [Ht' Ho'].
  { unfold read_values, for_line_of. by rewrite Hf. }
  unfold first_nexts, call_gen. rewrite alloc_spec.
  rewrite <- (length_fmap VInt zs), <- Ho'.
  apply nexts_throws; [by rewrite lookup_insert_eq|done|done].
Qed.

End reading.

(** ** Item 30: where the words start *)

Lemma space_ends_shift (l : list ascii) : ∀ s d,
  Item30.space_ends (s + d) l = (λ i, i + d) <$> Item30.space_ends s l.
Proof.
  induction l as [|c l IH]; intros s d; simpl; [done|].
  rewrite fmap_app. replace (s + d + 1) with (s + 1 + d) by lia. rewrite IH.
  f_equal. by destruct (Ascii.eqb c " ").
Qed.

Lemma space_ends_elem (l : list ascii) : ∀ s i,
  i ∈ Item30.space_ends s l
  ↔ s < i ∧ l !! Z.to_nat (i - 1 - s) = Some " "%char.
Proof.
  induction l as [|c l IH]; intros s i; simpl.
  - split; [by intros ?%elem_of_nil|]. by intros [_ ?].
  - rewrite elem_of_app, IH. split.
    + intros [Hi|[Hlt Hl]].
      * destruct (Ascii.eqb_spec c " ") as [->|]; [|by apply elem_of_nil in Hi].
        apply list_elem_of_singleton in Hi as ->. split; [lia|].
        by replace (s + 1 - 1 - s) with 0 by lia.
      * split; [lia|].
        replace (i - 1 - s) with (Z.succ (i - 1 - (s + 1))) by lia.
        rewrite Z2Nat.inj_succ by lia. done.
    + intros [Hlt Hl]. destruct (decide (i = s + 1)) as [->|Hne].
      * left. replace (s + 1 - 1 - s) with 0 in Hl by lia. simpl in Hl.
        injection Hl as ->. simpl. by apply list_elem_of_singleton.
      * right. split; [lia|].
        replace (i - 1 - s) with (Z.succ (i - 1 - (s + 1))) in Hl by lia.
        rewrite Z2Nat.inj_succ in Hl by lia. done.
Qed.

Lemma space_ends_sorted (l : list ascii) : ∀ s,
  StronglySorted Z.lt (Item30.space_ends s l)
  ∧ Forall (λ i, s < i ≤ s + Z.of_nat (length l)) (Item30.space_ends s l).
Proof.
  induction l as [|c l IH]; intros s; simpl; [by split; constructor|].
  destruct (IH (s + 1)) as [Hs Hb].
  assert (Forall (λ i, s < i ≤ s + Z.of_nat (S (length l)))
            (Item30.space_ends (s + 1) l)) as Hb'.
  { eapply Forall_impl; [exact Hb|]. simpl. intros; lia. }
  destruct (Ascii.eqb c " "); simpl; [|done]. split.
  - constructor; [done|]. eapply Forall_impl; [exact Hb|]. simpl. intros; lia.
  - constructor; [lia|done].
Qed.

Lemma index_words_fold (l : list ascii) : ∀ s acc,
  foldl (λ result '(index, letter),
           if Ascii.eqb letter " " then result ++ [VInt (index + 1)] else result)
        acc (Item30.enumerate_from s l)
  = acc ++ (VInt <$> Item30.space_ends s l).
Proof.
  induction l as [|c l IH]; intros s acc; simpl; [by rewrite app_nil_r|].
  rewrite IH. destruct (Ascii.eqb c " "); simpl; [|done]. by rewrite <- app_assoc.
Qed.

Lemma index_words_space_ends (text : string) :
  Item30.index_words text
  = VInt <$> ((if Item30.truthy text then [0] else [])
              ++ Item30.space_ends 0 (list_ascii_of_string text)).
Proof.
  unfold Item30.index_words, Item30.enumerate. rewrite index_words_fold, fmap_app.
  by destruct (Item30.truthy text).
Qed.

Lemma length_list_ascii_of_string (text : string) :
  length (list_ascii_of_string text) = String.length text.
Proof. induction text as [|c text IH]; simpl; [done|]. by rewrite IH. Qed.

(** X8.  [index_words(text)] is a strictly increasing list of ints between 0
    and [len(text)]: 0 when the text is not empty, and the index just after
    each space; so a text that ends with a space gets [len(text)], an index
    at which the text has no character. *)
Theorem index_words_positions (text : string) :
  ∃ zs, Item30.index_words text = VInt <$> zs
        ∧ StronglySorted Z.lt zs
        ∧ Forall (λ i, 0 ≤ i ≤ Z.of_nat (String.length text)) zs
        ∧ ∀ i, i ∈ zs ↔
               (i = 0 ∧ text ≠ EmptyString)
               ∨ (0 < i ∧ list_ascii_of_string text !! Z.to_nat (i - 1)
                          = Some " "%char).
Proof.
  eexists. split; [apply index_words_space_ends|].
  destruct (space_ends_sorted (list_ascii_of_string text) 0) as [Hs Hb].
  rewrite length_list_ascii_of_string in Hb.
  assert (∀ i, i ∈ Item30.space_ends 0 (list_ascii_of_string text) ↔
               0 < i ∧ list_ascii_of_string text !! Z.to_nat (i - 1) = Some " "%char)
    as Hel.
  { intros i. rewrite space_ends_elem. by replace (i - 1 - 0) with (i - 1) by lia. }
  assert (Forall (λ i, 0 ≤ i ≤ Z.of_nat (String.length text))
            (Item30.space_ends 0 (list_ascii_of_string text))) as Hb'.
  { eapply Forall_impl; [exact Hb|]. simpl. intros; lia. }
  destruct text as [|c text]; cbn [Item30.truthy app].
  - split_and!; [done|done|]. intros i. rewrite Hel. split; [by right|].
    by intros [[_ ?]|?].
  - split_and!.
    + constructor; [done|]. eapply Forall_impl; [exact Hb|]. simpl. intros; lia.
    + constructor; [lia|done].
    + intros i. rewrite elem_of_cons, Hel. split.
      * intros [->|?]; [by left|by right].
      * intros [[-> _]|?]; [by left|by right].
Qed.

Lemma returned_returns {R : Type} (g : Gen R) r : returned g = Some r → returns g = true.
Proof. induction g; simpl; try done. Qed.

Lemma bind_returned {A B : Type} (g : Gen A) (f : A → Gen B) r :
  returned g = Some r →
  outputs (g ≫= f) = outputs g ++ outputs (f r)
  ∧ returned (g ≫= f) = returned (f r).
Proof.
  unfold mbind, Gen_bind.
  induction g as [a|v g IH|e]; simpl; intros Hr; [by injection Hr as ->| |done].
  destruct (IH Hr) as [Ho Hret]. by rewrite Ho.
Qed.

Lemma index_file_line (l : list ascii) : ∀ s,
  let scan := for_each_acc l (λ offset letter,
    let offset := offset + 1 in
    (if Ascii.eqb letter " " then yield (VInt offset) else pass);;
    Return offset) in
  outputs (scan s) = VInt <$> Item30.space_ends s l
  ∧ returned (scan s) = Some (s + Z.of_nat (length l)).
Proof.
  induction l as [|c l IH]; intros s; simpl.
  - split; [done|]. f_equal. lia.
  - destruct (IH (s + 1)) as [Ho Hr]. simpl in Ho, Hr.
    destruct (Ascii.eqb c " "); simpl; rewrite Ho, Hr; (split; [done|f_equal; lia]).
Qed.

Lemma index_file_lines (handle : list string) : ∀ s,
  let lines := for_each_acc handle (λ offset line,
    (if Item30.truthy line then yield (VInt offset) else pass);;
    for_each_acc (list_ascii_of_string line) (λ offset letter,
      let offset := offset + 1 in
      (if Ascii.eqb letter " " then yield (VInt offset) else pass);;
      Return offset) offset) in
  outputs (lines s) = VInt <$> Item30.word_starts s handle
  ∧ ∃ s', returned (lines s) = Some s'.
Proof.
  induction handle as [|line handle IH]; intros s; simpl; [by eauto|].
  destruct (index_file_line (list_ascii_of_string line) s) as [Ho Hr].
  simpl in Ho, Hr. rewrite length_list_ascii_of_string in Hr.
  set (scan := for_each_acc (list_ascii_of_string line) _ s) in *.
  destruct (IH (s + Z.of_nat (String.length line))) as [Ho' [s' Hr']].
  simpl in Ho', Hr'.
  set (rest := for_each_acc handle _) in *.
  assert (outputs (scan ≫= rest)
          = (VInt <$> Item30.space_ends s (list_ascii_of_string line))
            ++ (VInt <$> Item30.word_starts (s + Z.of_nat (String.length line)) handle)
          ∧ returned (scan ≫= rest) = Some s') as [Hob Hrb].
  { destruct (bind_returned scan rest _ Hr) as [H1 H2]. by rewrite H1, H2, Ho, Ho', Hr'. }
  rewrite !fmap_app.
  destruct (Item30.truthy line); simpl.
  - split; [f_equal; exact Hob|exists s'; exact Hrb].
  - split; [exact Hob|exists s'; exact Hrb].
Qed.

Lemma word_starts_shift (handle : list string) : ∀ s d,
  Item30.word_starts (s + d) handle = (λ i, i + d) <$> Item30.word_starts s handle.
Proof.
  induction handle as [|line handle IH]; intros s d; simpl; [done|].
  rewrite !fmap_app, space_ends_shift.
  replace (s + d + Z.of_nat (String.length line))
    with (s + Z.of_nat (String.length line) + d) by lia.
  rewrite IH. f_equal. by destruct (Item30.truthy line).
Qed.

Lemma index_file_word_starts (handle : list string) :
  returns (Item30.index_file handle) = true
  ∧ outputs (Item30.index_file handle) = VInt <$> Item30.word_starts 0 handle.
Proof.
  unfold Item30.index_file.
  destruct (index_file_lines handle 0) as [Ho [s' Hr]]. simpl in Ho, Hr.
  set (lines := for_each_acc handle _ 0) in *.
  destruct (bind_returned lines (λ _, pass) s' Hr) as [Hob Hrb].
  split.
  - eapply returned_returns. exact Hrb.
  - rewrite Hob, Ho. simpl. by rewrite app_nil_r.
Qed.

(** X9.  [index_file] never raises and takes the lines one after the other:
    what it yields for a first line is [index_words] of that line, and what
    it yields for the lines after it is what it yields for them alone, moved
    up by the length of the first line. *)
Theorem index_file_by_lines (line : string) (rest : list string) :
  returns (Item30.index_file (line :: rest)) = true
  ∧ outputs (Item30.index_file []) = []
  ∧ outputs (Item30.index_file [line]) = Item30.index_words line
  ∧ ∃ zs, outputs (Item30.index_file rest) = VInt <$> zs
          ∧ outputs (Item30.index_file (line :: rest))
            = Item30.index_words line
              ++ (VInt <$> ((λ i, i + Z.of_nat (String.length line)) <$> zs)).
Proof.
  destruct (index_file_word_starts (line :: rest)) as [Hr Ho].
  destruct (index_file_word_starts rest) as [_ Ho'].
  destruct (index_file_word_starts [line]) as [_ Ho1].
  assert (VInt <$> Item30.word_starts 0 (line :: rest)
          = Item30.index_words line
            ++ (VInt <$> ((λ i, i + Z.of_nat (String.length line))
                          <$> Item30.word_starts 0 rest))) as Hcons.
  { rewrite index_words_space_ends, <- fmap_app. f_equal. simpl.
    rewrite <- word_starts_shift. by rewrite <- app_assoc. }
  split_and!; [done|done| |].
  - rewrite Ho1, index_words_space_ends. simpl. by rewrite !app_nil_r.
  - exists (Item30.word_starts 0 rest). split; [done|]. by rewrite Ho, Hcons.
Qed.

(** [it = index_words_iter("Four score")]: [list(it)] is [[0, 5]], a second
    [list(it)] is empty. *)
Lemma index_words_iter_list_twice_witness :
  (length (Item30.index_words "Four score") < 3)%nat
  ∧ ∃ it h1 l1 h2 l2 h3,
      call_gen (Item30.index_words_iter "Four score") ∅ = Some (Ok it, h1)
      ∧ list_ ∅ 3 it h1 = Some (Ok l1, h2)
      ∧ h2 !! l1 = Some (OList (Item30.index_words "Four score"))
      ∧ list_ ∅ 3 it h2 = Some (Ok l2, h3)
      ∧ h3 !! l2 = Some (OList []).
Proof.
  assert (length (Item30.index_words "Four score") < 3)%nat as Hlen
    by (vm_compute; lia).
  split; [exact Hlen|].
  apply (index_words_iter_list_twice ∅ "Four score" 3 ∅ Hlen).
Defined.

(** ** Item 33: how often [move] and [pause] yield *)

Lemma outputs_for_each_const {A : Type} (l : list A) (v : num) :
  returns (for_each l (λ _, yield v)) = true
  ∧ outputs (for_each l (λ _, yield v)) = replicate (length l) v.
Proof.
  induction l as [|x l [IHr IHo]]; simpl; [done|]. by rewrite IHo.
Qed.

(** X11.  [move(period, speed)] yields [speed] exactly [period] times and
    [pause(delay)] yields 0 exactly [delay] times; a period or delay that is
    zero or negative yields nothing.  Neither raises. *)
Theorem move_pause_counts (period delay : Z) (speed : num) :
  returns (Item33.move period speed) = true
  ∧ outputs (Item33.move period speed) = replicate (Z.to_nat period) speed
  ∧ returns (Item33.pause delay) = true
  ∧ outputs (Item33.pause delay) = replicate (Z.to_nat delay) (VInt 0).
Proof.
  unfold Item33.move, Item33.pause.
  destruct (outputs_for_each_const (range period) speed) as [Hr1 Ho1].
  destruct (outputs_for_each_const (range delay) (VInt 0)) as [Hr2 Ho2].
  unfold range in *. rewrite length_seqZ in Ho1, Ho2. done.
Qed.

(** ** These properties on the data of the notebooks *)

(** [normalize_func(lambda: read_values(path))] *)
Lemma normalize_func_fresh_witness :
  (returns (read_values values_txt path) = true
   ∧ (length (outputs (read_values values_txt path)) < 4)%nat)
  ∧ ∃ h', normalize_func values_txt 4 (call_gen (read_values values_txt path))
            values_heap
          = Some (percentages (outputs (read_values values_txt path)), h')
          ∧ preserved values_heap h'.
Proof.
  assert (length (outputs (read_values values_txt path)) < 4)%nat as Hlen
    by (vm_compute; lia).
  split; [by split|].
  apply (normalize_func_fresh values_txt 4 (read_values values_txt path) values_heap);
    [reflexivity|exact Hlen].
Defined.

(** [it = iter(values); normalize_func(lambda: it)] *)
Lemma normalize_func_same_iterator_witness :
  (remaining iterator_heap 3 = Some [VInt 15; VInt 35; VInt 80]
   ∧ sum_of [VInt 15; VInt 35; VInt 80] = Ok (VInt 130))
  ∧ ∃ h', normalize_func values_txt 4 (mret 3%positive) iterator_heap
          = Some (Ok [], h')
          ∧ remaining h' 3 = Some [].
Proof.
  split; [done|].
  apply (normalize_func_same_iterator values_txt 4 iterator_heap 3
           [VInt 15; VInt 35; VInt 80] (VInt 130));
    [reflexivity|reflexivity|simpl; lia].
Defined.

(** [normalize_defensive(ReadValues(path))] *)
Lemma normalize_defensive_accepts_container_witness :
  contents values_txt values_heap 2 = Some [VInt 15; VInt 35; VInt 80]
  ∧ ∃ h', normalize_defensive values_txt 4 2 values_heap
          = Some (percentages [VInt 15; VInt 35; VInt 80], h')
          ∧ preserved values_heap h'.
Proof.
  split; [done|].
  apply (normalize_defensive_accepts_container values_txt 4 values_heap 2);
    [reflexivity|simpl; lia].
Defined.

Lemma normalize_container_again_witness :
  contents values_txt values_heap 2 = Some [VInt 15; VInt 35; VInt 80]
  ∧ ∃ r h1 h2, normalize values_txt 4 2 values_heap = Some (r, h1)
               ∧ normalize values_txt 4 2 h1 = Some (r, h2)
               ∧ preserved values_heap h2.
Proof.
  split; [done|].
  apply (normalize_container_again values_txt 4 values_heap 2
           [VInt 15; VInt 35; VInt 80]); [reflexivity|simpl; lia].
Defined.

Lemma read_values_yields_ints_witness :
  (values_txt !! path = Some ["15" +:+ nl; "35" +:+ nl; "80" +:+ nl]
   ∧ mapM int_ ["15" +:+ nl; "35" +:+ nl; "80" +:+ nl] = Ok [15; 35; 80])
  ∧ first_nexts 4 (read_values values_txt path) values_heap
    = (Ok <$> take 4 (VInt <$> [15; 35; 80]))
      ++ replicate (4 - length [15; 35; 80]) (Raise StopIteration)
  ∧ ∀ c, values_heap !! c = Some (OReadValues path) →
         contents values_txt values_heap c = Some (VInt <$> [15; 35; 80]).
Proof.
  split; [done|].
  apply (read_values_yields_ints values_txt path
           ["15" +:+ nl; "35" +:+ nl; "80" +:+ nl] [15; 35; 80] values_heap 4);
    reflexivity.
Defined.

(** [read_values] on a file system without the file. *)
Lemma read_values_missing_file_witness :
  (∅ : gmap string (list string)) !! path = None
  ∧ (∃ it h', call_gen (read_values ∅ path) values_heap = Some (Ok it, h'))
  ∧ first_nexts 3 (read_values ∅ path) values_heap
    = Raise (FileNotFoundError path) :: replicate 2 (Raise StopIteration).
Proof.
  split; [done|].
  apply (read_values_missing_file ∅ path values_heap 2). reflexivity.
Defined.

(** A file whose second line is not an int literal. *)
Lemma read_values_bad_line_witness :
  let bad_txt : gmap string (list string) :=
    {[ path := ["15" +:+ nl; "3 5" +:+ nl; "80" +:+ nl] ]} in
  (bad_txt !! path = Some (["15" +:+ nl] ++ ("3 5" +:+ nl) :: ["80" +:+ nl])
   ∧ mapM int_ ["15" +:+ nl] = Ok [15]
   ∧ isascii ("3 5" +:+ nl) = true
   ∧ int_ ("3 5" +:+ nl)
     = Raise (ValueError "invalid literal for int() with base 10"))
  ∧ first_nexts (length [15] + 2) (read_values bad_txt path) ∅
    = (Ok <$> (VInt <$> [15]))
      ++ Raise (ValueError "invalid literal for int() with base 10")
         :: replicate 1 (Raise StopIteration).
Proof.
  intros bad_txt. split; [done|].
  apply (read_values_bad_line bad_txt path ["15" +:+ nl] ("3 5" +:+ nl)
           ["80" +:+ nl] [15]
           (ValueError "invalid literal for int() with base 10") ∅ 1);
    reflexivity.
Defined.
